(** * Shiritori name matching: the normaliser and the chain validator

    A shallow embedding of [src/App.tsx] (functions [normalize],
    [normalizeSpecialCases], [normalizeEnding], [normalizeKana],
    [normalizeDakuten], [isSmallKana], [normalizeSmallKana] and
    [getShiritoriValidity]) together with the ECMAScript string operations
    they call, and the properties of the canonical key that the
    specification states.

    A JavaScript string is a sequence of UTF-16 code units; it is modelled
    as a list of numbers.  String literals are written in UTF-8 and decoded
    by [js]. *)

From Stdlib Require Import String Ascii.
From Stdlib Require Import NArith ZArith List Bool Lia.
From Stdlib Require DecimalFacts DecimalPos DecimalN.
From Stdlib Require Import Permutation Sorted.
Import ListNotations.
Open Scope N_scope.

Definition code := N.
Definition jsstring := list code.

(** ** String literals *)

Module Utf8.

Definition continuation (b : N) : N := N.land b 0x3F.

Definition units_of_code_point (cp : N) : jsstring :=
  if cp <? 0x10000 then [cp]
  else [0xD800 + N.shiftr (cp - 0x10000) 10; 0xDC00 + N.land (cp - 0x10000) 0x3FF].

Fixpoint decode (s : string) : jsstring :=
  match s with
  | EmptyString => []
  | String a0 s1 =>
    let b0 := N_of_ascii a0 in
    if b0 <? 0x80 then b0 :: decode s1
    else
      match s1 with
      | EmptyString => [0xFFFD]
      | String a1 s2 =>
        let b1 := continuation (N_of_ascii a1) in
        if b0 <? 0xE0 then (N.shiftl (N.land b0 0x1F) 6 + b1) :: decode s2
        else
          match s2 with
          | EmptyString => [0xFFFD]
          | String a2 s3 =>
            let b2 := continuation (N_of_ascii a2) in
            if b0 <? 0xF0
            then (N.shiftl (N.land b0 0x0F) 12 + N.shiftl b1 6 + b2) :: decode s3
            else
              match s3 with
              | EmptyString => [0xFFFD]
              | String a3 s4 =>
                let b3 := continuation (N_of_ascii a3) in
                units_of_code_point
                  (N.shiftl (N.land b0 0x07) 18 + N.shiftl b1 12 + N.shiftl b2 6 + b3)
                  ++ decode s4
              end
          end
      end
  end.

End Utf8.

Definition js (s : string) : jsstring := Utf8.decode s.
Arguments js s%_string.

(** ** Unicode normalisation form KC

    [String.prototype.normalize('NFKC')] is the composition of three steps
    of UAX #15: compatibility decomposition, canonical ordering of
    combining marks, canonical composition.  The three steps are written
    out below as the standard gives them.  The character data is the
    excerpt of UnicodeData.txt for the blocks the program's tables and
    data live in ([in_excerpt]): Basic Latin, CJK Symbols and Punctuation,
    Hiragana, Katakana, CJK Unified Ideographs, the fullwidth ASCII
    variants and halfwidth katakana of Halfwidth and Fullwidth Forms, and
    the white space of ECMA-262.  A code unit without an entry in a table
    is a starter that neither decomposes nor composes.  Every table row
    lies in the excerpt, so on strings over the excerpt [nfkc] is the
    normalisation form; outside it the tables are silent, which is what
    Unicode says of lone surrogates but not of every other script. *)

Module Unicode.

Definition in_excerpt (c : code) : bool :=
  (c <=? 0x7F) || (c =? 0xA0) || (c =? 0x1680)
  || ((0x2000 <=? c) && (c <=? 0x200A)) || (c =? 0x2028) || (c =? 0x2029)
  || (c =? 0x202F) || (c =? 0x205F)
  || ((0x3000 <=? c) && (c <=? 0x30FF))
  || ((0x4E00 <=? c) && (c <=? 0x9FFF))
  || (c =? 0xFEFF) || ((0xFF00 <=? c) && (c <=? 0xFF9F)).

Fixpoint lookup {A : Type} (k : code) (t : list (code * A)) : option A :=
  match t with
  | [] => None
  | (k', v) :: t' => if k =? k' then Some v else lookup k t'
  end.

(** Full compatibility decomposition: Decomposition_Mapping, the
    compatibility mappings included, applied until nothing decomposes
    (lemma [decomposition_table_full]). *)
Definition decomposition_table : list (code * list code) :=
  [
   (0x00A0, [0x0020]); (0x2000, [0x0020]); (0x2001, [0x0020]); (0x2002, [0x0020]);
   (0x2003, [0x0020]); (0x2004, [0x0020]); (0x2005, [0x0020]); (0x2006, [0x0020]);
   (0x2007, [0x0020]); (0x2008, [0x0020]); (0x2009, [0x0020]); (0x200A, [0x0020]);
   (0x202F, [0x0020]); (0x205F, [0x0020]); (0x3000, [0x0020]); (0x3036, [0x3012]);
   (0x3038, [0x5341]); (0x3039, [0x5344]); (0x303A, [0x5345]); (0x304C, [0x304B; 0x3099]);
   (0x304E, [0x304D; 0x3099]); (0x3050, [0x304F; 0x3099]); (0x3052, [0x3051; 0x3099]); (0x3054, [0x3053; 0x3099]);
   (0x3056, [0x3055; 0x3099]); (0x3058, [0x3057; 0x3099]); (0x305A, [0x3059; 0x3099]); (0x305C, [0x305B; 0x3099]);
   (0x305E, [0x305D; 0x3099]); (0x3060, [0x305F; 0x3099]); (0x3062, [0x3061; 0x3099]); (0x3065, [0x3064; 0x3099]);
   (0x3067, [0x3066; 0x3099]); (0x3069, [0x3068; 0x3099]); (0x3070, [0x306F; 0x3099]); (0x3071, [0x306F; 0x309A]);
   (0x3073, [0x3072; 0x3099]); (0x3074, [0x3072; 0x309A]); (0x3076, [0x3075; 0x3099]); (0x3077, [0x3075; 0x309A]);
   (0x3079, [0x3078; 0x3099]); (0x307A, [0x3078; 0x309A]); (0x307C, [0x307B; 0x3099]); (0x307D, [0x307B; 0x309A]);
   (0x3094, [0x3046; 0x3099]); (0x309B, [0x0020; 0x3099]); (0x309C, [0x0020; 0x309A]); (0x309E, [0x309D; 0x3099]);
   (0x309F, [0x3088; 0x308A]); (0x30AC, [0x30AB; 0x3099]); (0x30AE, [0x30AD; 0x3099]); (0x30B0, [0x30AF; 0x3099]);
   (0x30B2, [0x30B1; 0x3099]); (0x30B4, [0x30B3; 0x3099]); (0x30B6, [0x30B5; 0x3099]); (0x30B8, [0x30B7; 0x3099]);
   (0x30BA, [0x30B9; 0x3099]); (0x30BC, [0x30BB; 0x3099]); (0x30BE, [0x30BD; 0x3099]); (0x30C0, [0x30BF; 0x3099]);
   (0x30C2, [0x30C1; 0x3099]); (0x30C5, [0x30C4; 0x3099]); (0x30C7, [0x30C6; 0x3099]); (0x30C9, [0x30C8; 0x3099]);
   (0x30D0, [0x30CF; 0x3099]); (0x30D1, [0x30CF; 0x309A]); (0x30D3, [0x30D2; 0x3099]); (0x30D4, [0x30D2; 0x309A]);
   (0x30D6, [0x30D5; 0x3099]); (0x30D7, [0x30D5; 0x309A]); (0x30D9, [0x30D8; 0x3099]); (0x30DA, [0x30D8; 0x309A]);
   (0x30DC, [0x30DB; 0x3099]); (0x30DD, [0x30DB; 0x309A]); (0x30F4, [0x30A6; 0x3099]); (0x30F7, [0x30EF; 0x3099]);
   (0x30F8, [0x30F0; 0x3099]); (0x30F9, [0x30F1; 0x3099]); (0x30FA, [0x30F2; 0x3099]); (0x30FE, [0x30FD; 0x3099]);
   (0x30FF, [0x30B3; 0x30C8]); (0xFF01, [0x0021]); (0xFF02, [0x0022]); (0xFF03, [0x0023]);
   (0xFF04, [0x0024]); (0xFF05, [0x0025]); (0xFF06, [0x0026]); (0xFF07, [0x0027]);
   (0xFF08, [0x0028]); (0xFF09, [0x0029]); (0xFF0A, [0x002A]); (0xFF0B, [0x002B]);
   (0xFF0C, [0x002C]); (0xFF0D, [0x002D]); (0xFF0E, [0x002E]); (0xFF0F, [0x002F]);
   (0xFF10, [0x0030]); (0xFF11, [0x0031]); (0xFF12, [0x0032]); (0xFF13, [0x0033]);
   (0xFF14, [0x0034]); (0xFF15, [0x0035]); (0xFF16, [0x0036]); (0xFF17, [0x0037]);
   (0xFF18, [0x0038]); (0xFF19, [0x0039]); (0xFF1A, [0x003A]); (0xFF1B, [0x003B]);
   (0xFF1C, [0x003C]); (0xFF1D, [0x003D]); (0xFF1E, [0x003E]); (0xFF1F, [0x003F]);
   (0xFF20, [0x0040]); (0xFF21, [0x0041]); (0xFF22, [0x0042]); (0xFF23, [0x0043]);
   (0xFF24, [0x0044]); (0xFF25, [0x0045]); (0xFF26, [0x0046]); (0xFF27, [0x0047]);
   (0xFF28, [0x0048]); (0xFF29, [0x0049]); (0xFF2A, [0x004A]); (0xFF2B, [0x004B]);
   (0xFF2C, [0x004C]); (0xFF2D, [0x004D]); (0xFF2E, [0x004E]); (0xFF2F, [0x004F]);
   (0xFF30, [0x0050]); (0xFF31, [0x0051]); (0xFF32, [0x0052]); (0xFF33, [0x0053]);
   (0xFF34, [0x0054]); (0xFF35, [0x0055]); (0xFF36, [0x0056]); (0xFF37, [0x0057]);
   (0xFF38, [0x0058]); (0xFF39, [0x0059]); (0xFF3A, [0x005A]); (0xFF3B, [0x005B]);
   (0xFF3C, [0x005C]); (0xFF3D, [0x005D]); (0xFF3E, [0x005E]); (0xFF3F, [0x005F]);
   (0xFF40, [0x0060]); (0xFF41, [0x0061]); (0xFF42, [0x0062]); (0xFF43, [0x0063]);
   (0xFF44, [0x0064]); (0xFF45, [0x0065]); (0xFF46, [0x0066]); (0xFF47, [0x0067]);
   (0xFF48, [0x0068]); (0xFF49, [0x0069]); (0xFF4A, [0x006A]); (0xFF4B, [0x006B]);
   (0xFF4C, [0x006C]); (0xFF4D, [0x006D]); (0xFF4E, [0x006E]); (0xFF4F, [0x006F]);
   (0xFF50, [0x0070]); (0xFF51, [0x0071]); (0xFF52, [0x0072]); (0xFF53, [0x0073]);
   (0xFF54, [0x0074]); (0xFF55, [0x0075]); (0xFF56, [0x0076]); (0xFF57, [0x0077]);
   (0xFF58, [0x0078]); (0xFF59, [0x0079]); (0xFF5A, [0x007A]); (0xFF5B, [0x007B]);
   (0xFF5C, [0x007C]); (0xFF5D, [0x007D]); (0xFF5E, [0x007E]); (0xFF5F, [0x2985]);
   (0xFF60, [0x2986]); (0xFF61, [0x3002]); (0xFF62, [0x300C]); (0xFF63, [0x300D]);
   (0xFF64, [0x3001]); (0xFF65, [0x30FB]); (0xFF66, [0x30F2]); (0xFF67, [0x30A1]);
   (0xFF68, [0x30A3]); (0xFF69, [0x30A5]); (0xFF6A, [0x30A7]); (0xFF6B, [0x30A9]);
   (0xFF6C, [0x30E3]); (0xFF6D, [0x30E5]); (0xFF6E, [0x30E7]); (0xFF6F, [0x30C3]);
   (0xFF70, [0x30FC]); (0xFF71, [0x30A2]); (0xFF72, [0x30A4]); (0xFF73, [0x30A6]);
   (0xFF74, [0x30A8]); (0xFF75, [0x30AA]); (0xFF76, [0x30AB]); (0xFF77, [0x30AD]);
   (0xFF78, [0x30AF]); (0xFF79, [0x30B1]); (0xFF7A, [0x30B3]); (0xFF7B, [0x30B5]);
   (0xFF7C, [0x30B7]); (0xFF7D, [0x30B9]); (0xFF7E, [0x30BB]); (0xFF7F, [0x30BD]);
   (0xFF80, [0x30BF]); (0xFF81, [0x30C1]); (0xFF82, [0x30C4]); (0xFF83, [0x30C6]);
   (0xFF84, [0x30C8]); (0xFF85, [0x30CA]); (0xFF86, [0x30CB]); (0xFF87, [0x30CC]);
   (0xFF88, [0x30CD]); (0xFF89, [0x30CE]); (0xFF8A, [0x30CF]); (0xFF8B, [0x30D2]);
   (0xFF8C, [0x30D5]); (0xFF8D, [0x30D8]); (0xFF8E, [0x30DB]); (0xFF8F, [0x30DE]);
   (0xFF90, [0x30DF]); (0xFF91, [0x30E0]); (0xFF92, [0x30E1]); (0xFF93, [0x30E2]);
   (0xFF94, [0x30E4]); (0xFF95, [0x30E6]); (0xFF96, [0x30E8]); (0xFF97, [0x30E9]);
   (0xFF98, [0x30EA]); (0xFF99, [0x30EB]); (0xFF9A, [0x30EC]); (0xFF9B, [0x30ED]);
   (0xFF9C, [0x30EF]); (0xFF9D, [0x30F3]); (0xFF9E, [0x3099]); (0xFF9F, [0x309A]) ].

(** Canonical_Combining_Class, where it is not 0. *)
Definition combining_class_table : list (code * N) :=
  [(0x302A, 218); (0x302B, 228); (0x302C, 232); (0x302D, 222); (0x302E, 224); (0x302F, 224); (0x3099, 8); (0x309A, 8)].

(** Primary composites: (first, second) to composite. *)
Definition composition_table : list ((code * code) * code) :=
  [
   ((0x304B, 0x3099), 0x304C); ((0x304D, 0x3099), 0x304E); ((0x304F, 0x3099), 0x3050);
   ((0x3051, 0x3099), 0x3052); ((0x3053, 0x3099), 0x3054); ((0x3055, 0x3099), 0x3056);
   ((0x3057, 0x3099), 0x3058); ((0x3059, 0x3099), 0x305A); ((0x305B, 0x3099), 0x305C);
   ((0x305D, 0x3099), 0x305E); ((0x305F, 0x3099), 0x3060); ((0x3061, 0x3099), 0x3062);
   ((0x3064, 0x3099), 0x3065); ((0x3066, 0x3099), 0x3067); ((0x3068, 0x3099), 0x3069);
   ((0x306F, 0x3099), 0x3070); ((0x306F, 0x309A), 0x3071); ((0x3072, 0x3099), 0x3073);
   ((0x3072, 0x309A), 0x3074); ((0x3075, 0x3099), 0x3076); ((0x3075, 0x309A), 0x3077);
   ((0x3078, 0x3099), 0x3079); ((0x3078, 0x309A), 0x307A); ((0x307B, 0x3099), 0x307C);
   ((0x307B, 0x309A), 0x307D); ((0x3046, 0x3099), 0x3094); ((0x309D, 0x3099), 0x309E);
   ((0x30AB, 0x3099), 0x30AC); ((0x30AD, 0x3099), 0x30AE); ((0x30AF, 0x3099), 0x30B0);
   ((0x30B1, 0x3099), 0x30B2); ((0x30B3, 0x3099), 0x30B4); ((0x30B5, 0x3099), 0x30B6);
   ((0x30B7, 0x3099), 0x30B8); ((0x30B9, 0x3099), 0x30BA); ((0x30BB, 0x3099), 0x30BC);
   ((0x30BD, 0x3099), 0x30BE); ((0x30BF, 0x3099), 0x30C0); ((0x30C1, 0x3099), 0x30C2);
   ((0x30C4, 0x3099), 0x30C5); ((0x30C6, 0x3099), 0x30C7); ((0x30C8, 0x3099), 0x30C9);
   ((0x30CF, 0x3099), 0x30D0); ((0x30CF, 0x309A), 0x30D1); ((0x30D2, 0x3099), 0x30D3);
   ((0x30D2, 0x309A), 0x30D4); ((0x30D5, 0x3099), 0x30D6); ((0x30D5, 0x309A), 0x30D7);
   ((0x30D8, 0x3099), 0x30D9); ((0x30D8, 0x309A), 0x30DA); ((0x30DB, 0x3099), 0x30DC);
   ((0x30DB, 0x309A), 0x30DD); ((0x30A6, 0x3099), 0x30F4); ((0x30EF, 0x3099), 0x30F7);
   ((0x30F0, 0x3099), 0x30F8); ((0x30F1, 0x3099), 0x30F9); ((0x30F2, 0x3099), 0x30FA);
   ((0x30FD, 0x3099), 0x30FE) ].

Definition decomposition (c : code) : list code :=
  match lookup c decomposition_table with
  | Some l => l
  | None => [c]
  end.

Definition ccc (c : code) : N :=
  match lookup c combining_class_table with
  | Some k => k
  | None => 0
  end.

Definition starter (c : code) : bool := ccc c =? 0.

Fixpoint lookup_pair (a b : code) (t : list ((code * code) * code)) : option code :=
  match t with
  | [] => None
  | ((a', b'), p) :: t' => if (a =? a') && (b =? b') then Some p else lookup_pair a b t'
  end.

Definition primary_composite (a b : code) : option code :=
  lookup_pair a b composition_table.

Definition decompose (s : jsstring) : jsstring := flat_map decomposition s.

(** Canonical Ordering Algorithm: a character moves behind every
    combining mark of strictly smaller non-zero class that follows it;
    starters stay where they are and nothing crosses a starter. *)
Fixpoint insert_by_ccc (c : code) (s : jsstring) : jsstring :=
  match s with
  | d :: s' =>
    if (0 <? ccc d) && (ccc d <? ccc c) then d :: insert_by_ccc c s' else c :: s
  | [] => [c]
  end.

Fixpoint canonical_order (s : jsstring) : jsstring :=
  match s with
  | [] => []
  | c :: s' => insert_by_ccc c (canonical_order s')
  end.

(** Canonical Composition Algorithm.  [L] is the last starter, [rpend]
    the marks kept after it, most recent first.  A character is blocked
    from [L] when the mark before it has a class that is zero or not
    smaller than its own. *)
Definition blocked (rpend : list code) (c : code) : bool :=
  match rpend with
  | [] => false
  | b :: _ => (ccc b =? 0) || (ccc c <=? ccc b)
  end.

Fixpoint compose_from (L : code) (rpend : list code) (rest : jsstring) : jsstring :=
  match rest with
  | [] => L :: rev rpend
  | c :: rest' =>
    match (if blocked rpend c then None else primary_composite L c) with
    | Some p => compose_from p rpend rest'
    | None =>
      if starter c then L :: rev rpend ++ compose_from c [] rest'
      else compose_from L (c :: rpend) rest'
    end
  end.

Fixpoint compose (s : jsstring) : jsstring :=
  match s with
  | [] => []
  | c :: s' => if starter c then compose_from c [] s' else c :: compose s'
  end.

Definition nfkc (s : jsstring) : jsstring :=
  compose (canonical_order (decompose s)).

End Unicode.

(** ** ECMAScript string operations

    The built-in methods the program calls, on code-unit lists.  An index
    read [s[i]] and a property read [map[key]] yield [undefined] when
    nothing is there: they return [option]. *)

Module JS.

Fixpoint eqb (a b : jsstring) : bool :=
  match a, b with
  | [], [] => true
  | x :: a', y :: b' => (x =? y) && eqb a' b'
  | _, _ => false
  end.

(** [!s] on a string: only the empty string is falsy. *)
Definition is_empty (s : jsstring) : bool :=
  match s with
  | [] => true
  | _ :: _ => false
  end.

(** [s[i]] *)
Definition index (s : jsstring) (i : nat) : option code := nth_error s i.

(** [ToString] of an optional string value. *)
Definition undefined_text : jsstring :=
  Eval vm_compute in js "undefined".

Definition to_string (v : option jsstring) : jsstring :=
  match v with
  | Some s => s
  | None => undefined_text
  end.

(** [map[key]] on an object literal used as a table. *)
Fixpoint get (map : list (jsstring * jsstring)) (key : jsstring) : option jsstring :=
  match map with
  | [] => None
  | (k, v) :: map' => if eqb key k then Some v else get map' key
  end.

(** [v || d] where [v] is a string or [undefined]. *)
Definition or_else (v : option jsstring) (d : jsstring) : jsstring :=
  match v with
  | Some s => if is_empty s then d else s
  | None => d
  end.

Definition truthy (v : option jsstring) : bool :=
  match v with
  | Some s => negb (is_empty s)
  | None => false
  end.

(** [s.startsWith(p)] and [s.endsWith(p)] *)
Definition startsWith (s p : jsstring) : bool :=
  (length p <=? length s)%nat && eqb (firstn (length p) s) p.

Definition endsWith (s p : jsstring) : bool :=
  (length p <=? length s)%nat && eqb (skipn (length s - length p) s) p.

(** [s.includes(p)] *)
Fixpoint includes (s p : jsstring) : bool :=
  startsWith s p ||
  match s with
  | [] => false
  | _ :: s' => includes s' p
  end.

(** [s.slice(start, end)]; [None] for an omitted [end]. *)
Definition slice (s : jsstring) (start : Z) (end_ : option Z) : jsstring :=
  let len := Z.of_nat (length s) in
  let from := if (start <? 0)%Z then Z.max (len + start) 0 else Z.min start len in
  let e := match end_ with Some e => e | None => len end in
  let to := if (e <? 0)%Z then Z.max (len + e) 0 else Z.min e len in
  firstn (Z.to_nat (Z.max (to - from) 0)) (skipn (Z.to_nat from) s).

(** [s.split(sep)]: [cur] is the piece being collected, most recent unit
    first; [skip] counts the units of a matched separator still to drop. *)
Fixpoint split_go (sep : jsstring) (skip : nat) (cur : jsstring) (s : jsstring)
  : list jsstring :=
  match s with
  | [] => [rev cur]
  | c :: s' =>
    match skip with
    | S k => split_go sep k cur s'
    | O =>
      if startsWith s sep then rev cur :: split_go sep (length sep - 1) [] s'
      else split_go sep 0 (c :: cur) s'
    end
  end.

Definition split (s sep : jsstring) : list jsstring :=
  match sep with
  | [] => map (fun c => [c]) s
  | _ :: _ => split_go sep 0 [] s
  end.

(** [pieces.join(sep)] *)
Definition join (pieces : list jsstring) (sep : jsstring) : jsstring :=
  match pieces with
  | [] => []
  | x :: rest => x ++ flat_map (fun y => sep ++ y) rest
  end.

(** The string iterator behind [for (const ch of s)]: one string per code
    point, a surrogate pair staying together. *)
Definition high_surrogate (c : code) : bool := (0xD800 <=? c) && (c <=? 0xDBFF).
Definition low_surrogate (c : code) : bool := (0xDC00 <=? c) && (c <=? 0xDFFF).

Fixpoint codePoints (s : jsstring) : list jsstring :=
  match s with
  | [] => []
  | hi :: rest =>
    match rest with
    | lo :: rest' =>
      if high_surrogate hi && low_surrogate lo then [hi; lo] :: codePoints rest'
      else [hi] :: codePoints rest
    | [] => [[hi]]
    end
  end.

(** [String.fromCharCode(n)] *)
Definition fromCharCode (n : N) : jsstring := [n mod 0x10000].

(** [s.toLowerCase()].  Of the code points of the excerpt only the Basic
    Latin and the fullwidth Latin capitals have a lower case. *)
Definition lower (c : code) : code :=
  if ((0x41 <=? c) && (c <=? 0x5A)) || ((0xFF21 <=? c) && (c <=? 0xFF3A))
  then c + 0x20 else c.

Definition toLowerCase (s : jsstring) : jsstring := map lower s.

(** [s.trim()]: WhiteSpace and LineTerminator code points of ECMA-262. *)
Definition white_space (c : code) : bool :=
  ((0x09 <=? c) && (c <=? 0x0D)) || (c =? 0x20) || (c =? 0xA0) || (c =? 0x1680)
  || ((0x2000 <=? c) && (c <=? 0x200A)) || (c =? 0x2028) || (c =? 0x2029)
  || (c =? 0x202F) || (c =? 0x205F) || (c =? 0x3000) || (c =? 0xFEFF).

Fixpoint trimStart (s : jsstring) : jsstring :=
  match s with
  | c :: s' => if white_space c then trimStart s' else s
  | [] => []
  end.

Definition trimEnd (s : jsstring) : jsstring := rev (trimStart (rev s)).

Definition trim (s : jsstring) : jsstring := trimEnd (trimStart s).

End JS.

(** ** The program: [src/App.tsx] *)

Record Pokemon := {
  id : N;
  name : jsstring;
  jpName : jsstring;
  isFinalEvolution : bool;
  isRestricted : bool
}.

Definition long_vowel_mark : code := 0x30FC.

(** [Object.entries(specialCases)], in insertion order. *)
Definition specialCases : list (jsstring * jsstring) :=
  Eval vm_compute in
  [ (js "２", js "ツー");
    (js "Ｚ", js "ゼット") ].

Definition normalizeSpecialCases (input : jsstring) : jsstring :=
  if JS.is_empty input then []
  else
    fold_left (fun out '(from, to) => JS.join (JS.split out from) to)
              specialCases input.

(** The [while] loop of [normalizeEnding]; [n] is [end + 1], so the guard
    [end >= 0] is [n] being a successor, and the value returned is the
    [end + 1] passed to [slice]. *)
Fixpoint normalizeEnding_loop (nk : jsstring) (n : nat) : nat :=
  match n with
  | O => O
  | S end_ =>
    match JS.index nk end_ with
    | Some ch => if ch =? long_vowel_mark then normalizeEnding_loop nk end_ else n
    | None => n
    end
  end.

(** The same loop step by step on the integer [end], as the source has
    it: [fuel] bounds the number of times the guard is evaluated, and
    [None] is a loop still running when the bound is reached. *)
Fixpoint normalizeEnding_while (fuel : nat) (nk : jsstring) (end_ : Z) : option Z :=
  match fuel with
  | O => None
  | S fuel' =>
    if (0 <=? end_)%Z then
      match JS.index nk (Z.to_nat end_) with
      | Some ch =>
        if ch =? long_vowel_mark then normalizeEnding_while fuel' nk (end_ - 1)
        else Some end_
      | None => Some end_
      end
    else Some end_
  end.

Definition normalizeEnding (input : jsstring) : jsstring :=
  if JS.is_empty input then []
  else
    let nk := Unicode.nfkc input in
    let end_plus_1 := normalizeEnding_loop nk (length nk) in
    JS.slice nk 0 (Some (Z.of_nat end_plus_1)).

Definition normalizeKana (input : jsstring) : jsstring :=
  if JS.is_empty input then []
  else
    let nk := Unicode.nfkc input in
    let out :=
      fold_left
        (fun out ch =>
           match ch with
           | code :: _ =>
             if (0x3041 <=? code) && (code <=? 0x3096)
             then out ++ JS.fromCharCode (code + 0x60)
             else out ++ ch
           | [] => out ++ ch
           end)
        (JS.codePoints nk) [] in
    JS.toLowerCase out.

Definition dakuten_map : list (jsstring * jsstring) :=
  Eval vm_compute in
  [ (js "ガ", js "カ"); (js "ギ", js "キ"); (js "グ", js "ク"); (js "ゲ", js "ケ"); (js "ゴ", js "コ");
    (js "ザ", js "サ"); (js "ジ", js "シ"); (js "ズ", js "ス"); (js "ゼ", js "セ"); (js "ゾ", js "ソ");
    (js "ダ", js "タ"); (js "ヂ", js "チ"); (js "ヅ", js "ツ"); (js "デ", js "テ"); (js "ド", js "ト");
    (js "バ", js "ハ"); (js "ビ", js "ヒ"); (js "ブ", js "フ"); (js "ベ", js "ヘ"); (js "ボ", js "ホ");
    (js "パ", js "ハ"); (js "ピ", js "ヒ"); (js "プ", js "フ"); (js "ペ", js "ヘ"); (js "ポ", js "ホ") ].

Definition normalizeDakuten (input : jsstring) : jsstring :=
  fold_left
    (fun out index =>
       let ch := JS.to_string (option_map (fun c => [c]) (JS.index input index)) in
       if (index =? 0)%nat || (index =? length input - 1)%nat
       then out ++ JS.or_else (JS.get dakuten_map ch) ch
       else out ++ ch)
    (seq 0 (length input)) [].

Definition smallHira : jsstring := Eval vm_compute in js "ぁぃぅぇぉっゃゅょゎ".
Definition smallKata : jsstring := Eval vm_compute in js "ァィゥェォッャュョヮヵヶ".

Definition isSmallKana (ch : jsstring) : bool :=
  JS.includes smallHira ch || JS.includes smallKata ch.

Definition small_map : list (jsstring * jsstring) :=
  Eval vm_compute in
  [ (js "ぁ", js "あ"); (js "ぃ", js "い"); (js "ぅ", js "う"); (js "ぇ", js "え"); (js "ぉ", js "お");
    (js "ゃ", js "や"); (js "ゅ", js "ゆ"); (js "ょ", js "よ"); (js "ゎ", js "わ");
    (js "っ", js "つ");
    (js "ゕ", js "か"); (js "ゖ", js "け");
    (js "ァ", js "ア"); (js "ィ", js "イ"); (js "ゥ", js "ウ"); (js "ェ", js "エ"); (js "ォ", js "オ");
    (js "ャ", js "ヤ"); (js "ュ", js "ユ"); (js "ョ", js "ヨ"); (js "ヮ", js "ワ");
    (js "ッ", js "ツ");
    (js "ヵ", js "カ"); (js "ヶ", js "ケ") ].

Definition normalizeSmallKana (input : jsstring) : jsstring :=
  if JS.is_empty input then []
  else
    let nk := Unicode.nfkc input in
    fold_left
      (fun out ch =>
         out ++ (if isSmallKana ch && JS.truthy (JS.get small_map ch)
                 then JS.to_string (JS.get small_map ch) else ch))
      (JS.codePoints nk) [].

Definition normalize (input : jsstring) : jsstring :=
  if JS.is_empty input then []
  else
    let special := normalizeSpecialCases input in
    let ending := normalizeEnding special in
    let kana := normalizeKana ending in
    let daku := normalizeDakuten kana in
    let small := normalizeSmallKana daku in
    small.

Definition getShiritoriValidity (prev next : option Pokemon) (curr : jsstring) : bool :=
  if JS.eqb (JS.trim curr) [] then true
  else
    let normalizedCurr := normalize curr in
    let prevName := match prev with Some p => jpName p | None => [] end in
    let nextName := match next with Some p => jpName p | None => [] end in
    let prevMatch :=
      if negb (JS.eqb prevName [])
      then
        let lastChar := JS.slice (normalize prevName) (-1) None in
        JS.startsWith normalizedCurr lastChar
      else true in
    let nextMatch :=
      if negb (JS.eqb nextName [])
      then
        let firstChar := option_map (fun c => [c]) (JS.index (normalize nextName) 0) in
        JS.endsWith normalizedCurr (JS.to_string firstChar)
      else true in
    prevMatch && nextMatch.

(** ** Per-character forms of the passes

    Each pass, once its loop is unrolled, applies one of these functions
    to every code unit (or to the two edge positions).  They are defined
    by the program's own tables. *)

Definition hiragana (c : code) : bool := (0x3041 <=? c) && (c <=? 0x3096).

Definition substitute (c : code) : jsstring :=
  match JS.get specialCases [c] with
  | Some to => to
  | None => [c]
  end.

Definition to_katakana (c : code) : code :=
  if hiragana c then c + 0x60 else c.

Definition lower_katakana (c : code) : code := JS.lower (to_katakana c).

Definition voiced (c : code) : bool := JS.truthy (JS.get dakuten_map [c]).

Definition devoice (c : code) : code :=
  hd c (JS.or_else (JS.get dakuten_map [c]) [c]).


Definition enlarge (c : code) : code :=
  hd c (if isSmallKana [c] && JS.truthy (JS.get small_map [c])
        then JS.to_string (JS.get small_map [c]) else [c]).

Fixpoint last_error (s : jsstring) : option code :=
  match s with
  | [] => None
  | [c] => Some c
  | _ :: s' => last_error s'
  end.

(** The string without its trailing run of long-vowel marks. *)
Fixpoint strip_trailing (s : jsstring) : jsstring :=
  match s with
  | [] => []
  | c :: s' =>
    match strip_trailing s' with
    | [] => if c =? long_vowel_mark then [] else [c]
    | r => c :: r
    end
  end.

Fixpoint map_last (f : code -> code) (s : jsstring) : jsstring :=
  match s with
  | [] => []
  | [c] => [f c]
  | c :: s' => c :: map_last f s'
  end.

(** [f] at index 0 and at index [length - 1], once where they coincide. *)
Definition edges (f : code -> code) (s : jsstring) : jsstring :=
  match s with
  | [] => []
  | [c] => [f c]
  | c :: s' => f c :: map_last f s'
  end.

(** The code units [lo], [lo + 1], ..., [lo + n - 1]. *)
Definition code_range (lo : code) (n : nat) : list code :=
  map (fun k => lo + N.of_nat k) (seq 0 n).

(** The code units that occur in the keys of a table. *)
Definition key_units (map : list (jsstring * jsstring)) : list code :=
  flat_map fst map.

(** A loop over the indices of a string, appending [F index unit]. *)
Fixpoint indexed (F : nat -> code -> jsstring) (k : nat) (q : jsstring) : jsstring :=
  match q with
  | [] => []
  | c :: q' => F k c ++ indexed F (S k) q'
  end.

(** Tables whose values are all one code unit long. *)
Definition unit_valued (map : list (jsstring * jsstring)) : Prop :=
  Forall (fun kv => exists v, snd kv = [v]) map.

(** ** Strings without combining marks

    The code points of the excerpt whose normal form contains a combining
    mark: the ideographic and Hangul tone marks, the combining voiced and
    semi-voiced sound marks, and their spacing and halfwidth forms. *)

Definition combining_mark_sources : list code :=
  [0x302A; 0x302B; 0x302C; 0x302D; 0x302E; 0x302F;
   0x3099; 0x309A; 0x309B; 0x309C; 0xFF9E; 0xFF9F].

Definition mem (c : code) (l : list code) : bool := existsb (N.eqb c) l.

Definition mark_free (s : jsstring) : Prop :=
  Forall (fun c => mem c combining_mark_sources = false) s.

(** A decomposed string in which every combining mark directly follows a
    starter it composes with; [settle] returns its composition. *)
Fixpoint settle (d : jsstring) : option jsstring :=
  match d with
  | [] => Some []
  | b :: d' =>
    if Unicode.starter b then
      match d' with
      | [] => Some [b]
      | m :: d'' =>
        if Unicode.starter m then option_map (cons b) (settle d')
        else
          match Unicode.primary_composite b m with
          | Some v => option_map (cons v) (settle d'')
          | None => None
          end
      end
    else None
  end.

(** A code unit that is its own normal form and carries no mark. *)
Definition clean (c : code) : bool :=
  negb (mem c combining_mark_sources) && JS.eqb (Unicode.nfkc [c]) [c].





(** The edge invariant of a canonical key: its first and its last code
    unit are not entries of the voicing table. *)
Definition edges_unvoiced (key : jsstring) : Prop :=
  forall c, hd_error key = Some c \/ last_error key = Some c -> voiced c = false.

(** ** The chain validator as the specification words it

    [isValidLink]: the candidate key must start with the last character
    of the predecessor key and end with the first character of the
    successor key; an absent or empty name puts no constraint.  The last
    and the first character are strings of one code unit, empty for an
    empty key, as [slice(-1)] has it. *)

Definition lastCharacter (key : jsstring) : jsstring :=
  match last_error key with
  | Some c => [c]
  | None => []
  end.

Definition firstCharacter (key : jsstring) : jsstring := firstn 1 key.

Definition isValidLink (predecessorName successorName : option jsstring)
           (candidateText : jsstring) : bool :=
  match JS.trim candidateText with
  | [] => true
  | _ :: _ =>
    let key := normalize candidateText in
    let predecessor_ok :=
      match predecessorName with
      | None | Some [] => true
      | Some p => JS.startsWith key (lastCharacter (normalize p))
      end in
    let successor_ok :=
      match successorName with
      | None | Some [] => true
      | Some n => JS.endsWith key (firstCharacter (normalize n))
      end in
    predecessor_ok && successor_ok
  end.


(** * The rest of [App]: thumbnails, pickers and state *)

(** ** [getThumbnail]

    [id.toString()] of a non-negative integer below 2^53, the range in
    which a JS number holds every integer exactly and prints it in plain
    decimal digits. *)

Fixpoint digits (u : Decimal.uint) : jsstring :=
  match u with
  | Decimal.Nil => []
  | Decimal.D0 u => 0x30 :: digits u
  | Decimal.D1 u => 0x31 :: digits u
  | Decimal.D2 u => 0x32 :: digits u
  | Decimal.D3 u => 0x33 :: digits u
  | Decimal.D4 u => 0x34 :: digits u
  | Decimal.D5 u => 0x35 :: digits u
  | Decimal.D6 u => 0x36 :: digits u
  | Decimal.D7 u => 0x37 :: digits u
  | Decimal.D8 u => 0x38 :: digits u
  | Decimal.D9 u => 0x39 :: digits u
  end.

(** [Number.prototype.toString] in radix 10. *)
Definition Number_toString (n : N) : jsstring := digits (N.to_uint n).

Definition thumbnail_prefix : jsstring :=
  Eval vm_compute in
  js "https://s3-ap-northeast-1.amazonaws.com/pokedb.tokyo/sv/assets/pokemon/thumbs/pokemon-".

Definition thumbnail_suffix : jsstring := Eval vm_compute in js "-00.png".

(** [while (s.length < 4) s = '0' + s]; every round makes [s] one unit
    longer, so four rounds are enough (lemma [getThumbnail_loop_eq]). *)
Fixpoint getThumbnail_loop (fuel : nat) (s : jsstring) : jsstring :=
  match fuel with
  | O => s
  | S fuel' => if (length s <? 4)%nat then getThumbnail_loop fuel' (0x30 :: s) else s
  end.

Definition getThumbnail (id : N) : jsstring :=
  let s := getThumbnail_loop 4 (Number_toString id) in
  thumbnail_prefix ++ s ++ thumbnail_suffix.

(** [Number.MAX_SAFE_INTEGER], 2^53 - 1. *)
Definition max_safe_integer : N := 9007199254740991.

(** ** Arrays and the state of [App]

    An array is a list of optional values: [None] stands for [null], for
    [undefined] and for a hole alike, which the program never tells apart
    (it only tests such values for being nullish or falsy). *)

(** [a[i]]; an index below zero or past the end reads [undefined]. *)
Definition element {A : Type} (a : list (option A)) (i : Z) : option A :=
  if (i <? 0)%Z then None
  else match nth_error a (Z.to_nat i) with
       | Some v => v
       | None => None
       end.

(** [next = [...a]; next[i] = v]: an index past the end extends the
    copy, leaving holes. *)
Fixpoint array_set {A : Type} (a : list (option A)) (i : nat) (v : option A)
  : list (option A) :=
  match i, a with
  | O, [] => [v]
  | O, _ :: a' => v :: a'
  | S i', [] => None :: array_set [] i' v
  | S i', x :: a' => x :: array_set a' i' v
  end.

Record AppState := {
  inputValues : list (option jsstring);
  selectedPokemon : list (option Pokemon);
  useOnlyFinalEvolutions : bool
}.

(** [useState(Array(6).fill(''))], [useState(Array(6).fill(null))],
    [useState(false)]. *)
Definition initialState : AppState :=
  {| inputValues := repeat (Some []) 6;
     selectedPokemon := repeat None 6;
     useOnlyFinalEvolutions := false |}.

(** *** [picker(index)] *)

Definition rawInput (st : AppState) (index : nat) : jsstring :=
  JS.trim (JS.or_else (element (inputValues st) (Z.of_nat index)) []).

Definition currentInput (st : AppState) (index : nat) : jsstring :=
  normalizeKana (rawInput st index).

Definition prevPokemon (st : AppState) (index : nat) : option Pokemon :=
  element (selectedPokemon st) (Z.of_nat index - 1).

Definition nextPokemon (st : AppState) (index : nat) : option Pokemon :=
  element (selectedPokemon st) (Z.of_nat index + 1).

(** The callback given to [data.filter]. *)
Definition offered (st : AppState) (index : nat) (p : Pokemon) : bool :=
  if isRestricted p then false
  else if useOnlyFinalEvolutions st && negb (isFinalEvolution p) then false
  else
    let label := jpName p in
    let shiritoriValidity :=
      getShiritoriValidity (prevPokemon st index) (nextPokemon st index) label in
    if negb shiritoriValidity then false
    else if negb (JS.is_empty (currentInput st index))
         then JS.startsWith (normalizeKana label) (currentInput st index)
         else true.

Definition filtered (data : list Pokemon) (st : AppState) (index : nat) : list Pokemon :=
  filter (offered st index) data.

(** [Array.prototype.sort] with the comparator [(a, b) => a.id - b.id].
    The sort of ECMA-262 is stable, and with a consistent comparator its
    result is the one ordered arrangement that keeps equal elements in
    their order; it is computed here by insertion. *)
Fixpoint insert_by_id (p : Pokemon) (l : list Pokemon) : list Pokemon :=
  match l with
  | [] => [p]
  | q :: l' => if id p <=? id q then p :: l else q :: insert_by_id p l'
  end.

Definition sort_by_id (l : list Pokemon) : list Pokemon :=
  fold_right insert_by_id [] l.

(** The [options] property: [filtered.slice().sort(...)]. *)
Definition options (data : list Pokemon) (st : AppState) (index : nat) : list Pokemon :=
  sort_by_id (filtered data st index).

Definition absent {A : Type} (v : option A) : bool :=
  match v with
  | Some _ => false
  | None => true
  end.

(** The [filterOptions] property, the list the widget shows. *)
Definition filterOptions (data : list Pokemon) (st : AppState) (index : nat)
  : list Pokemon :=
  let shouldGate :=
    JS.is_empty (rawInput st index)
    && absent (prevPokemon st index) && absent (nextPokemon st index) in
  if shouldGate then [] else filtered data st index.

(** *** The handlers *)

Inductive event : Type :=
| InputChange (index : nat) (v : jsstring)
| Change (index : nat) (v : option Pokemon)
| FinalOnly (checked : bool).

Definition handle (st : AppState) (e : event) : AppState :=
  match e with
  | InputChange index v =>
    {| inputValues := array_set (inputValues st) index (Some v);
       selectedPokemon := selectedPokemon st;
       useOnlyFinalEvolutions := useOnlyFinalEvolutions st |}
  | Change index v =>
    {| inputValues := inputValues st;
       selectedPokemon := array_set (selectedPokemon st) index v;
       useOnlyFinalEvolutions := useOnlyFinalEvolutions st |}
  | FinalOnly checked =>
    {| inputValues := inputValues st;
       selectedPokemon := selectedPokemon st;
       useOnlyFinalEvolutions := checked |}
  end.

(** The events the six pickers of [App] can raise: [index] is one of
    0, ..., 5, and the value of an [onChange] is [null] (the field was
    cleared) or one of the entries the picker shows. *)
Definition enabled (data : list Pokemon) (st : AppState) (e : event) : Prop :=
  match e with
  | InputChange index _ => (index < 6)%nat
  | Change index None => (index < 6)%nat
  | Change index (Some p) => (index < 6)%nat /\ In p (filterOptions data st index)
  | FinalOnly _ => True
  end.

Inductive reachable (data : list Pokemon) : AppState -> Prop :=
| reachable_initial : reachable data initialState
| reachable_handle st e :
    reachable data st -> enabled data st e -> reachable data (handle st e).

(** One name may follow another when the last character of the first key
    is the first character of the second. *)
Definition follows (p q : Pokemon) : Prop :=
  exists c, last_error (normalize (jpName p)) = Some c /\
            hd_error (normalize (jpName q)) = Some c.

(** A name the validator has an opinion on and a key to compare. *)
Definition ordinary (p : Pokemon) : Prop :=
  JS.trim (jpName p) <> [] /\ normalize (jpName p) <> [].

(** Every two entries selected in adjacent slots were accepted by the
    validator, one as the successor of the other or the other way round. *)
Definition linked (sel : list (option Pokemon)) : Prop :=
  forall i p q,
    element sel (Z.of_nat i) = Some p -> element sel (Z.of_nat i + 1) = Some q ->
    getShiritoriValidity (Some p) None (jpName q) = true \/
    getShiritoriValidity None (Some q) (jpName p) = true.

(** ** Sample entries

    Four entries in the shape of those of [resource/data.json], and a
    state of [App] reached by typing "ぴ" into the first picker, selecting
    ピカチュウ there and ウインディ in the second picker. *)

Definition pikachu : Pokemon :=
  Eval vm_compute in
  {| id := 25; name := js "Pikachu";
     jpName := js "ピカチュウ";
     isFinalEvolution := false; isRestricted := false |}.

Definition arcanine : Pokemon :=
  Eval vm_compute in
  {| id := 59; name := js "Arcanine";
     jpName := js "ウインディ";
     isFinalEvolution := true; isRestricted := false |}.

Definition eevee : Pokemon :=
  Eval vm_compute in
  {| id := 133; name := js "Eevee";
     jpName := js "イーブイ";
     isFinalEvolution := false; isRestricted := false |}.

Definition mewtwo : Pokemon :=
  Eval vm_compute in
  {| id := 150; name := js "Mewtwo";
     jpName := js "ミュウツー";
     isFinalEvolution := true; isRestricted := true |}.

Definition sample_data : list Pokemon := [eevee; pikachu; mewtwo; arcanine].

Definition sample_input : jsstring := Eval vm_compute in js "ぴ".

Definition sample_typed : AppState :=
  handle initialState (InputChange 0 sample_input).

Definition sample_state : AppState :=
  handle (handle sample_typed (Change 0 (Some pikachu))) (Change 1 (Some arcanine)).

(** ** Classes of code units the canonical key is checked against *)






(** * Facts about the string operations *)

(** From a property of every code unit of a string to another one. *)
Ltac by_units H := revert H; apply Forall_impl; intros ? ?.

(** A check that runs over a finite table or range. *)
Ltac by_table := vm_compute; reflexivity.

(** The literals of the program's tables, as code units. *)
Lemma js_literals :
  js "２" = [0xFF12] /\ js "Ｚ" = [0xFF3A] /\ js "2" = [0x32] /\ js "Z" = [0x5A] /\
  js "ー" = [0x30FC] /\ js "ガ" = [0x30AC] /\ js "カ" = [0x30AB] /\
  js "ぁ" = [0x3041] /\ js "ゖ" = [0x3096] /\ js "ァ" = [0x30A1] /\ js "ヶ" = [0x30F6].
Proof. vm_compute. repeat split; reflexivity. Qed.

Lemma eqb_eq (a b : jsstring) : JS.eqb a b = true <-> a = b.
Proof.
  revert b; induction a as [|x a IH]; intros [|y b]; simpl; split; intro H;
    try reflexivity; try discriminate.
  - apply andb_true_iff in H as [Hx Hab]. apply N.eqb_eq in Hx.
    apply IH in Hab. now subst.
  - injection H as -> ->. rewrite N.eqb_refl. simpl. now apply IH.
Qed.

Lemma eqb_refl (a : jsstring) : JS.eqb a a = true.
Proof. now apply eqb_eq. Qed.

Lemma eqb_neq (a b : jsstring) : JS.eqb a b = false <-> a <> b.
Proof.
  split.
  - intros H E. apply eqb_eq in E. congruence.
  - intros H. destruct (JS.eqb a b) eqn:E; [|reflexivity].
    apply eqb_eq in E. contradiction.
Qed.

Lemma fold_left_append (A : Type) (g : jsstring -> A -> jsstring) (f : A -> jsstring) :
  (forall out x, g out x = out ++ f x) ->
  forall l acc, fold_left g l acc = acc ++ flat_map f l.
Proof.
  intros Hg l; induction l as [|x l IH]; intros acc; simpl.
  - now rewrite app_nil_r.
  - rewrite IH, Hg, app_assoc. reflexivity.
Qed.

Lemma flat_map_singleton (A B : Type) (f : A -> B) (l : list A) :
  flat_map (fun x => [f x]) l = map f l.
Proof. induction l as [|x l IH]; simpl; [reflexivity | now rewrite IH]. Qed.

(** Iterating by code point and iterating by code unit agree for a loop
    body that treats a surrogate pair unit by unit. *)
Lemma flat_map_codePoints (g : jsstring -> jsstring) :
  (forall hi lo, JS.high_surrogate hi = true -> JS.low_surrogate lo = true ->
                 g [hi; lo] = g [hi] ++ g [lo]) ->
  forall s, flat_map g (JS.codePoints s) = flat_map (fun c => g [c]) s.
Proof.
  intros Hg s.
  enough (H : flat_map g (JS.codePoints s) = flat_map (fun c => g [c]) s /\
              forall c, flat_map g (JS.codePoints (c :: s))
                        = flat_map (fun c => g [c]) (c :: s)) by apply H.
  induction s as [|lo s [IH1 IH2]].
  - split; [reflexivity|]. intros c. simpl. reflexivity.
  - split; [apply IH2|]. intros hi.
    change (JS.codePoints (hi :: lo :: s))
      with (if JS.high_surrogate hi && JS.low_surrogate lo
            then [hi; lo] :: JS.codePoints s
            else [hi] :: JS.codePoints (lo :: s)).
    destruct (JS.high_surrogate hi && JS.low_surrogate lo) eqn:E.
    + apply andb_true_iff in E as [Hh Hl].
      cbn [flat_map]. rewrite IH1, (Hg _ _ Hh Hl), <- app_assoc. reflexivity.
    + cbn [flat_map]. rewrite IH2. reflexivity.
Qed.

Lemma startsWith_unit (c k : code) (s : jsstring) :
  JS.startsWith (c :: s) [k] = (c =? k).
Proof.
  unfold JS.startsWith. simpl. now rewrite andb_true_r.
Qed.

(** [split] then [join] on a one-unit separator replaces every
    occurrence, left to right. *)
Lemma join_split_go (k : code) (to : jsstring) (s cur : jsstring) :
  exists p ps, JS.split_go [k] 0 cur s = p :: ps /\
    p ++ flat_map (fun y => to ++ y) ps
    = rev cur ++ flat_map (fun c => if c =? k then to else [c]) s.
Proof.
  revert cur; induction s as [|c s IH]; intros cur.
  - exists (rev cur), []. split; reflexivity.
  - cbn [JS.split_go]. rewrite startsWith_unit. destruct (c =? k) eqn:E.
    + destruct (IH []) as (p & ps & Hs & Hj).
      exists (rev cur), (p :: ps). split.
      * cbn [length Nat.sub]. now rewrite Hs.
      * cbn [flat_map]. rewrite E, <- app_assoc, Hj. reflexivity.
    + destruct (IH (c :: cur)) as (p & ps & Hs & Hj).
      exists p, ps. split; [exact Hs|].
      rewrite Hj. cbn [flat_map rev]. rewrite E, <- app_assoc. reflexivity.
Qed.

Lemma join_split_unit (k : code) (to s : jsstring) :
  JS.join (JS.split s [k]) to = flat_map (fun c => if c =? k then to else [c]) s.
Proof.
  unfold JS.split. destruct (join_split_go k to s []) as (p & ps & Hs & Hj).
  rewrite Hs. exact Hj.
Qed.

Lemma slice_prefix (s : jsstring) (n : nat) :
  (n <= length s)%nat -> JS.slice s 0 (Some (Z.of_nat n)) = firstn n s.
Proof.
  intros Hn. unfold JS.slice. cbn [Z.ltb Z.compare].
  replace (Z.of_nat n <? 0)%Z with false by (symmetry; apply Z.ltb_ge; lia).
  rewrite Z.min_l by lia. rewrite Z.min_l by lia.
  rewrite Z.sub_0_r, Z.max_l by lia. rewrite Nat2Z.id. reflexivity.
Qed.

Lemma last_error_app (s : jsstring) (c : code) : last_error (s ++ [c]) = Some c.
Proof.
  induction s as [|x s IH]; [reflexivity|].
  cbn [app last_error]. destruct (s ++ [c]) eqn:E; [|exact IH].
  destruct s; discriminate.
Qed.

Lemma slice_last (s : jsstring) : JS.slice s (-1) None = lastCharacter s.
Proof.
  unfold JS.slice, lastCharacter.
  destruct s as [|c t _] using rev_ind; [reflexivity|].
  rewrite last_error_app, length_app. cbn [length].
  set (n := length t).
  replace (Z.of_nat (n + 1)) with (Z.of_nat n + 1)%Z by lia.
  change (-1 <? 0)%Z with true. cbv iota.
  replace (Z.of_nat n + 1 <? 0)%Z with false by (symmetry; apply Z.ltb_ge; lia).
  replace (Z.max (Z.of_nat n + 1 + -1) 0) with (Z.of_nat n) by lia.
  rewrite Z.min_id.
  replace (Z.max (Z.of_nat n + 1 - Z.of_nat n) 0) with 1%Z by lia.
  rewrite Nat2Z.id. subst n.
  rewrite skipn_app, skipn_all, Nat.sub_diag. reflexivity.
Qed.

Lemma includes_unit (s : jsstring) (c : code) : JS.includes s [c] = mem c s.
Proof.
  induction s as [|x s IH]; [reflexivity|].
  cbn [JS.includes]. rewrite startsWith_unit, IH. unfold mem. cbn [existsb].
  now rewrite (N.eqb_sym x c).
Qed.

Lemma includes_head (s p : jsstring) (x : code) :
  JS.includes s (x :: p) = true -> mem x s = true.
Proof.
  induction s as [|y s IH]; cbn [JS.includes].
  - unfold JS.startsWith. simpl. discriminate.
  - intros H. apply orb_true_iff in H as [H | H].
    + unfold JS.startsWith in H. apply andb_true_iff in H as [_ H].
      cbn [length firstn JS.eqb] in H. apply andb_true_iff in H as [H _].
      unfold mem. cbn [existsb]. now rewrite (N.eqb_sym x y), H.
    + unfold mem in *. cbn [existsb]. rewrite (IH H). apply orb_true_r.
Qed.

Lemma mem_In (c : code) (l : list code) : mem c l = true <-> In c l.
Proof.
  unfold mem. rewrite existsb_exists. split.
  - intros (x & Hx & E). apply N.eqb_eq in E. now subst.
  - intros H. exists c. split; [exact H | apply N.eqb_refl].
Qed.

Lemma get_unit_valued (map : list (jsstring * jsstring)) (key s : jsstring) :
  unit_valued map -> JS.get map key = Some s -> exists v, s = [v].
Proof.
  intros Hm. induction Hm as [|[k v] map (w & Hw) _ IH]; cbn [JS.get].
  - discriminate.
  - destruct (JS.eqb key k); [|exact IH].
    intros [= <-]. exists w. exact Hw.
Qed.

Lemma dakuten_map_unit_valued : unit_valued dakuten_map.
Proof. repeat constructor; eexists; reflexivity. Qed.

Lemma small_map_unit_valued : unit_valued small_map.
Proof. repeat constructor; eexists; reflexivity. Qed.

Lemma or_else_devoice (c : code) :
  JS.or_else (JS.get dakuten_map [c]) [c] = [devoice c].
Proof.
  unfold devoice. destruct (JS.get dakuten_map [c]) as [s|] eqn:E; [|reflexivity].
  destruct (get_unit_valued _ _ _ dakuten_map_unit_valued E) as (v & ->).
  reflexivity.
Qed.

Lemma small_step_enlarge (c : code) :
  (if isSmallKana [c] && JS.truthy (JS.get small_map [c])
   then JS.to_string (JS.get small_map [c]) else [c]) = [enlarge c].
Proof.
  unfold enlarge.
  destruct (isSmallKana [c] && JS.truthy (JS.get small_map [c])) eqn:C; [|reflexivity].
  apply andb_true_iff in C as [_ C].
  destruct (JS.get small_map [c]) as [s|] eqn:E; [|discriminate].
  destruct (get_unit_valued _ _ _ small_map_unit_valued E) as (v & ->).
  reflexivity.
Qed.

(** ** The loop of [normalizeEnding] *)

Lemma strip_trailing_app_mark (t : jsstring) :
  strip_trailing (t ++ [long_vowel_mark]) = strip_trailing t.
Proof.
  induction t as [|x t IH]; [reflexivity|].
  cbn [app strip_trailing]. now rewrite IH.
Qed.

Lemma strip_trailing_app_other (t : jsstring) (c : code) :
  c <> long_vowel_mark -> strip_trailing (t ++ [c]) = t ++ [c].
Proof.
  intros Hc. induction t as [|x t IH].
  - cbn [app strip_trailing]. apply N.eqb_neq in Hc. now rewrite Hc.
  - cbn [app strip_trailing]. rewrite IH.
    destruct (t ++ [c]) eqn:E; [|reflexivity].
    destruct t; discriminate.
Qed.

Lemma normalizeEnding_loop_app (n : nat) (t u : jsstring) :
  (n <= length t)%nat ->
  normalizeEnding_loop (t ++ u) n = normalizeEnding_loop t n.
Proof.
  induction n as [|n IH]; intros Hn; [reflexivity|].
  cbn [normalizeEnding_loop]. unfold JS.index.
  rewrite nth_error_app1 by lia.
  destruct (nth_error t n) as [ch|]; [|reflexivity].
  destruct (ch =? long_vowel_mark); [|reflexivity].
  apply IH. lia.
Qed.

Lemma normalizeEnding_loop_le (nk : jsstring) (n : nat) :
  (normalizeEnding_loop nk n <= n)%nat.
Proof.
  induction n as [|n IH]; cbn [normalizeEnding_loop]; [lia|].
  destruct (JS.index nk n) as [ch|]; [|lia].
  destruct (ch =? long_vowel_mark); lia.
Qed.

(** The loop stops before its guard has been evaluated more often than
    the string is long plus one, with the [end] that [normalizeEnding_loop]
    computes. *)
Lemma normalizeEnding_while_loop (nk : jsstring) (n fuel : nat) :
  (n < fuel)%nat ->
  normalizeEnding_while fuel nk (Z.of_nat n - 1)
  = Some (Z.of_nat (normalizeEnding_loop nk n) - 1)%Z.
Proof.
  revert fuel; induction n as [|n IH]; intros [|fuel] Hf; try lia.
  - reflexivity.
  - cbn [normalizeEnding_while normalizeEnding_loop].
    replace (0 <=? Z.of_nat (S n) - 1)%Z with true by (symmetry; apply Z.leb_le; lia).
    replace (Z.to_nat (Z.of_nat (S n) - 1)) with n by lia.
    destruct (JS.index nk n) as [ch|]; [|reflexivity].
    destruct (ch =? long_vowel_mark); [|reflexivity].
    replace (Z.of_nat (S n) - 1 - 1)%Z with (Z.of_nat n - 1)%Z by lia.
    apply IH. lia.
Qed.

Lemma firstn_normalizeEnding_loop (nk : jsstring) :
  firstn (normalizeEnding_loop nk (length nk)) nk = strip_trailing nk.
Proof.
  induction nk as [|c t IH] using rev_ind; [reflexivity|].
  rewrite length_app. cbn [length]. rewrite Nat.add_1_r.
  cbn [normalizeEnding_loop]. unfold JS.index.
  rewrite nth_error_app2, Nat.sub_diag by lia. cbn [nth_error].
  destruct (c =? long_vowel_mark) eqn:E.
  - apply N.eqb_eq in E. subst c.
    rewrite normalizeEnding_loop_app by lia.
    rewrite strip_trailing_app_mark, <- IH.
    pose proof (normalizeEnding_loop_le t (length t)) as Hle.
    rewrite firstn_app.
    replace (normalizeEnding_loop t (length t) - length t)%nat with 0%nat by lia.
    cbn [firstn]. now rewrite app_nil_r.
  - apply N.eqb_neq in E. rewrite (strip_trailing_app_other _ _ E).
    apply firstn_all2. rewrite length_app. cbn [length]. lia.
Qed.

(** ** The passes, loop by loop *)

Lemma nfkc_nil : Unicode.nfkc [] = [].
Proof. reflexivity. Qed.

Lemma normalizeSpecialCases_eq (s : jsstring) :
  normalizeSpecialCases s = flat_map substitute s.
Proof.
  unfold normalizeSpecialCases. destruct s as [|c0 s0]; [reflexivity|].
  cbn [JS.is_empty]. generalize (c0 :: s0) as s. clear. intros s.
  unfold specialCases. cbn [fold_left]. rewrite !join_split_unit.
  induction s as [|c s IH]; [reflexivity|].
  cbn [flat_map]. rewrite flat_map_app. f_equal; [|exact IH].
  unfold substitute, specialCases. cbn [JS.get JS.eqb]. rewrite !andb_true_r.
  destruct (c =? 65298) eqn:E1.
  - reflexivity.
  - cbn [flat_map]. rewrite app_nil_r. destruct (c =? 65338); reflexivity.
Qed.

Lemma normalizeEnding_eq (s : jsstring) :
  normalizeEnding s = strip_trailing (Unicode.nfkc s).
Proof.
  unfold normalizeEnding. destruct s as [|c0 s0]; [reflexivity|].
  cbn [JS.is_empty]. rewrite slice_prefix by apply normalizeEnding_loop_le.
  apply firstn_normalizeEnding_loop.
Qed.

(** [normalizeEnding] is the slice up to the [end] the step-by-step loop
    stops at. *)
Lemma normalizeEnding_by_while (s : jsstring) :
  s <> [] ->
  exists end_,
    normalizeEnding_while (S (length (Unicode.nfkc s))) (Unicode.nfkc s)
                          (Z.of_nat (length (Unicode.nfkc s)) - 1) = Some end_ /\
    normalizeEnding s = JS.slice (Unicode.nfkc s) 0 (Some (end_ + 1)%Z).
Proof.
  intros Hs. eexists. split.
  - apply normalizeEnding_while_loop. lia.
  - unfold normalizeEnding. destruct s as [|c s]; [contradiction|].
    cbn [JS.is_empty]. do 2 f_equal. lia.
Qed.

Lemma surrogate_not_hiragana (c : code) :
  JS.high_surrogate c = true \/ JS.low_surrogate c = true -> hiragana c = false.
Proof.
  unfold JS.high_surrogate, JS.low_surrogate, hiragana.
  intros [H | H]; apply andb_true_iff in H as [H1 H2];
    apply N.leb_le in H1, H2; apply andb_false_iff; right; apply N.leb_gt; lia.
Qed.

Lemma normalizeKana_eq (s : jsstring) :
  normalizeKana s = map (fun c => JS.lower (to_katakana c)) (Unicode.nfkc s).
Proof.
  unfold normalizeKana. destruct s as [|c0 s0]; [reflexivity|].
  cbn [JS.is_empty]. generalize (Unicode.nfkc (c0 :: s0)) as nk. intros nk.
  rewrite (fold_left_append _ _
    (fun ch => match ch with
               | code :: _ => if hiragana code then JS.fromCharCode (code + 0x60) else ch
               | [] => ch
               end)).
  2:{ intros out [|code ch]; [reflexivity|]. unfold hiragana.
      destruct ((12353 <=? code) && (code <=? 12438)); reflexivity. }
  rewrite app_nil_l, flat_map_codePoints.
  2:{ intros hi lo Hh Hl.
      rewrite (surrogate_not_hiragana hi), (surrogate_not_hiragana lo) by tauto.
      reflexivity. }
  unfold JS.toLowerCase. rewrite <- (map_map to_katakana JS.lower). f_equal.
  rewrite <- flat_map_singleton. apply flat_map_ext. intros c.
  unfold to_katakana. destruct (hiragana c) eqn:E; [|reflexivity].
  unfold JS.fromCharCode. rewrite N.mod_small; [reflexivity|].
  unfold hiragana in E. apply andb_true_iff in E as [_ E]. apply N.leb_le in E. lia.
Qed.

Lemma flat_map_seq_index (f : nat -> option code -> jsstring) (q p : jsstring) :
  flat_map (fun i => f i (nth_error (p ++ q) i)) (seq (length p) (length q))
  = indexed (fun i c => f i (Some c)) (length p) q.
Proof.
  revert p; induction q as [|c q IH]; intros p; [reflexivity|].
  cbn [length seq flat_map indexed].
  rewrite nth_error_app2, Nat.sub_diag by lia. cbn [nth_error]. f_equal.
  specialize (IH (p ++ [c])). rewrite <- app_assoc, length_app in IH.
  cbn [app length] in IH. rewrite Nat.add_1_r in IH. exact IH.
Qed.

Lemma indexed_map_last (len : nat) (t : jsstring) (k : nat) :
  (1 <= k)%nat -> (k + length t = len)%nat ->
  indexed (fun i c => if (i =? 0)%nat || (i =? len - 1)%nat then [devoice c] else [c]) k t
  = map_last devoice t.
Proof.
  revert k; induction t as [|c t IH]; intros k Hk Hlen; [reflexivity|].
  cbn [indexed map_last]. destruct t as [|c' t].
  - cbn [length] in Hlen. replace (k =? len - 1)%nat with true
      by (symmetry; apply Nat.eqb_eq; lia).
    now rewrite orb_true_r.
  - cbn [length] in Hlen.
    replace (k =? 0)%nat with false by (symmetry; apply Nat.eqb_neq; lia).
    replace (k =? len - 1)%nat with false by (symmetry; apply Nat.eqb_neq; lia).
    cbn [orb app]. f_equal. apply IH; cbn [length]; lia.
Qed.

Lemma indexed_ext (F G : nat -> code -> jsstring) (q : jsstring) (k : nat) :
  (forall i c, F i c = G i c) -> indexed F k q = indexed G k q.
Proof.
  intros H. revert k; induction q as [|c q IH]; intros k; [reflexivity|].
  cbn [indexed]. now rewrite H, IH.
Qed.

Lemma normalizeDakuten_eq (s : jsstring) : normalizeDakuten s = edges devoice s.
Proof.
  unfold normalizeDakuten.
  pose (f := fun (i : nat) (v : option code) =>
    let ch := JS.to_string (option_map (fun c => [c]) v) in
    if (i =? 0)%nat || (i =? length s - 1)%nat
    then JS.or_else (JS.get dakuten_map ch) ch else ch).
  rewrite (fold_left_append _ _ (fun i => f i (nth_error s i))).
  2:{ intros out i. unfold f, JS.index.
      destruct ((i =? 0)%nat || (i =? length s - 1)%nat); reflexivity. }
  rewrite app_nil_l.
  change (flat_map (fun i => f i (nth_error ([] ++ s) i))
                   (seq (length (@nil code)) (length s)) = edges devoice s).
  rewrite flat_map_seq_index.
  rewrite (indexed_ext _
    (fun i c => if (i =? 0)%nat || (i =? length s - 1)%nat then [devoice c] else [c])).
  2:{ intros i c. unfold f. cbn [option_map JS.to_string].
      now rewrite or_else_devoice. }
  clear f. cbn [length].
  destruct s as [|c t]; [reflexivity|].
  cbn [indexed Nat.eqb orb]. destruct t as [|c' t]; [reflexivity|].
  cbn [app edges]. f_equal.
  apply indexed_map_last; cbn [length]; lia.
Qed.

Lemma not_small_surrogate (c : code) (p : jsstring) :
  JS.high_surrogate c = true \/ JS.low_surrogate c = true ->
  isSmallKana (c :: p) = false.
Proof.
  intros H. unfold isSmallKana.
  destruct (JS.includes smallHira (c :: p)) eqn:E1.
  - apply includes_head, mem_In in E1. exfalso.
    unfold smallHira in E1. cbn [In] in E1.
    repeat (destruct E1 as [<- | E1]; [destruct H; discriminate|]). exact E1.
  - destruct (JS.includes smallKata (c :: p)) eqn:E2; [|reflexivity].
    apply includes_head, mem_In in E2. exfalso.
    unfold smallKata in E2. cbn [In] in E2.
    repeat (destruct E2 as [<- | E2]; [destruct H; discriminate|]). exact E2.
Qed.

Lemma normalizeSmallKana_eq (s : jsstring) :
  normalizeSmallKana s = map enlarge (Unicode.nfkc s).
Proof.
  unfold normalizeSmallKana. destruct s as [|c0 s0]; [reflexivity|].
  cbn [JS.is_empty]. generalize (Unicode.nfkc (c0 :: s0)) as nk. intros nk.
  rewrite (fold_left_append _ _
    (fun ch => if isSmallKana ch && JS.truthy (JS.get small_map ch)
               then JS.to_string (JS.get small_map ch) else ch))
    by reflexivity.
  rewrite app_nil_l, flat_map_codePoints.
  2:{ intros hi lo Hh Hl.
      rewrite !not_small_surrogate by tauto. reflexivity. }
  rewrite <- flat_map_singleton. apply flat_map_ext. intros c.
  apply small_step_enlarge.
Qed.

(** [normalize] as the composition of the five unrolled passes. *)
Lemma normalize_eq (s : jsstring) :
  normalize s =
  map enlarge (Unicode.nfkc
    (edges devoice
       (map lower_katakana (Unicode.nfkc
          (strip_trailing (Unicode.nfkc (flat_map substitute s))))))).
Proof.
  unfold normalize. destruct s as [|c0 s0]; [reflexivity|].
  cbn [JS.is_empty].
  now rewrite normalizeSmallKana_eq, normalizeDakuten_eq, normalizeKana_eq,
    normalizeEnding_eq, normalizeSpecialCases_eq.
Qed.

(** * Facts about the normalisation form *)

Lemma lookup_In (A : Type) (k : code) (t : list (code * A)) (v : A) :
  Unicode.lookup k t = Some v -> In (k, v) t.
Proof.
  induction t as [|[k' v'] t IH]; cbn [Unicode.lookup]; [discriminate|].
  destruct (k =? k') eqn:E.
  - intros [= ->]. apply N.eqb_eq in E. subst. now left.
  - intros H. right. now apply IH.
Qed.

Lemma lookup_pair_In (a b p : code) (t : list ((code * code) * code)) :
  Unicode.lookup_pair a b t = Some p -> In ((a, b), p) t.
Proof.
  induction t as [|[[a' b'] p'] t IH]; cbn [Unicode.lookup_pair]; [discriminate|].
  destruct ((a =? a') && (b =? b')) eqn:E.
  - intros [= ->]. apply andb_true_iff in E as [Ea Eb].
    apply N.eqb_eq in Ea, Eb. subst. now left.
  - intros H. right. now apply IH.
Qed.

(** A property checked on every row of a table holds of every lookup. *)
Lemma decomposition_table_forall (P : code -> list code -> bool) :
  forallb (fun row => P (fst row) (snd row)) Unicode.decomposition_table = true ->
  forall c l, Unicode.lookup c Unicode.decomposition_table = Some l -> P c l = true.
Proof.
  intros H c l Hl. apply lookup_In in Hl.
  rewrite forallb_forall in H. exact (H _ Hl).
Qed.

Lemma composition_table_forall (P : code -> code -> code -> bool) :
  forallb (fun row => P (fst (fst row)) (snd (fst row)) (snd row))
          Unicode.composition_table = true ->
  forall a b p, Unicode.primary_composite a b = Some p -> P a b p = true.
Proof.
  intros H a b p Hp. apply lookup_pair_In in Hp.
  rewrite forallb_forall in H. exact (H _ Hp).
Qed.

Lemma combining_class_table_forall (P : code -> N -> bool) :
  forallb (fun row => P (fst row) (snd row)) Unicode.combining_class_table = true ->
  forall c k, Unicode.lookup c Unicode.combining_class_table = Some k -> P c k = true.
Proof.
  intros H c k Hk. apply lookup_In in Hk.
  rewrite forallb_forall in H. exact (H _ Hk).
Qed.

(** Every row of the three tables lies in the excerpt, but for two
    values of the decomposition table: the white parentheses U+2985 and
    U+2986, which Unicode leaves alone, as the tables do. *)
Lemma tables_in_excerpt :
  forallb (fun row => Unicode.in_excerpt (fst row)
                      && forallb (fun x => Unicode.in_excerpt x
                                           || (x =? 0x2985) || (x =? 0x2986))
                                 (snd row))
          Unicode.decomposition_table = true /\
  forallb (fun row => Unicode.in_excerpt (fst row)) Unicode.combining_class_table = true /\
  forallb (fun row => Unicode.in_excerpt (fst (fst row))
                      && Unicode.in_excerpt (snd (fst row))
                      && Unicode.in_excerpt (snd row))
          Unicode.composition_table = true.
Proof. vm_compute. repeat split; reflexivity. Qed.

(** The values of the decomposition table do not decompose again. *)
Lemma decomposition_table_full (c : code) (l : list code) :
  Unicode.lookup c Unicode.decomposition_table = Some l ->
  Forall (fun x => Unicode.decomposition x = [x]) l.
Proof.
  intros H.
  apply (decomposition_table_forall
           (fun _ l => forallb (fun x => JS.eqb (Unicode.decomposition x) [x]) l))
    in H; [|by_table].
  rewrite forallb_forall in H. apply Forall_forall. intros x Hx.
  now apply eqb_eq, H.
Qed.

(** The second member of a composing pair is a combining mark, and the
    composite is a starter. *)
Lemma primary_composite_mark (a b p : code) :
  Unicode.primary_composite a b = Some p ->
  Unicode.starter b = false /\ Unicode.starter p = true.
Proof.
  intros H.
  apply (composition_table_forall
           (fun _ b p => negb (Unicode.starter b) && Unicode.starter p)) in H;
    [|by_table].
  apply andb_true_iff in H as [Hb Hp]. apply negb_true_iff in Hb. now split.
Qed.

Lemma primary_composite_starter (a b : code) :
  Unicode.starter b = true -> Unicode.primary_composite a b = None.
Proof.
  intros Hb. destruct (Unicode.primary_composite a b) as [p|] eqn:E; [|reflexivity].
  apply primary_composite_mark in E as [E _]. congruence.
Qed.

(** ** Properties of code units that normalisation preserves *)

Section Preservation.

Variable P : code -> Prop.



Hypothesis P_composite :
  forall a b p, P a -> P b -> Unicode.primary_composite a b = Some p -> P p.



Variable Q : code -> Prop.

Hypothesis Q_decomposition : forall c, Q c -> Forall P (Unicode.decomposition c).


End Preservation.

(** ** Normalisation of strings without combining marks *)

Lemma settle_unit (b : code) :
  settle [b] = if Unicode.starter b then Some [b] else None.
Proof. reflexivity. Qed.

Lemma settle_cons (b m : code) (d : jsstring) :
  settle (b :: m :: d) =
  if Unicode.starter b then
    if Unicode.starter m then option_map (cons b) (settle (m :: d))
    else match Unicode.primary_composite b m with
         | Some v => option_map (cons v) (settle d)
         | None => None
         end
  else None.
Proof. reflexivity. Qed.

Lemma settle_head (b : code) (d : jsstring) (o : jsstring) :
  settle (b :: d) = Some o -> Unicode.starter b = true.
Proof.
  cbn [settle]. destruct (Unicode.starter b); [reflexivity | discriminate].
Qed.

(** The three ways a settled string of two or more code units is built. *)
Lemma settle_cons_inv (b m : code) (d o : jsstring) :
  settle (b :: m :: d) = Some o ->
  Unicode.starter b = true /\
  ((Unicode.starter m = true /\
    exists o', settle (m :: d) = Some o' /\ o = b :: o') \/
   (Unicode.starter m = false /\
    exists v o', Unicode.primary_composite b m = Some v /\
                 settle d = Some o' /\ o = v :: o')).
Proof.
  intros H. pose proof (settle_head _ _ _ H) as Hb. split; [exact Hb|].
  rewrite settle_cons, Hb in H.
  destruct (Unicode.starter m) eqn:Hm.
  - left. split; [reflexivity|].
    destruct (settle (m :: d)) as [o'|]; [|discriminate].
    injection H as <-. now exists o'.
  - right. split; [reflexivity|].
    destruct (Unicode.primary_composite b m) as [v|]; [|discriminate].
    destruct (settle d) as [o'|]; [|discriminate].
    injection H as <-. now exists v, o'.
Qed.

Lemma compose_from_starter (L b : code) (rest : jsstring) :
  Unicode.starter b = true ->
  Unicode.compose_from L [] (b :: rest) = L :: Unicode.compose_from b [] rest.
Proof.
  intros Hb. cbn [Unicode.compose_from Unicode.blocked].
  now rewrite (primary_composite_starter L b Hb), Hb.
Qed.

Lemma compose_from_composite (b m v : code) (rest : jsstring) :
  Unicode.primary_composite b m = Some v ->
  Unicode.compose_from b [] (m :: rest) = Unicode.compose_from v [] rest.
Proof.
  intros Hv. cbn [Unicode.compose_from Unicode.blocked]. now rewrite Hv.
Qed.

Lemma compose_from_settle (d : jsstring) :
  forall o, settle d = Some o ->
  forall L, Unicode.compose_from L [] d = L :: o.
Proof.
  enough (H : (forall o, settle d = Some o ->
                 forall L, Unicode.compose_from L [] d = L :: o) /\
              (forall b o, settle (b :: d) = Some o ->
                 forall L, Unicode.compose_from L [] (b :: d) = L :: o))
    by apply H.
  induction d as [|m d [IH1 IH2]].
  - split.
    + intros o [= <-] L. reflexivity.
    + intros b o H L. pose proof (settle_head _ _ _ H) as Hb.
      rewrite settle_unit, Hb in H. injection H as <-.
      now rewrite compose_from_starter.
  - split; [exact (IH2 m)|].
    intros b o H L.
    apply settle_cons_inv in H
      as [Hb [(Hm & o' & E & ->) | (Hm & v & o' & Ev & E & ->)]];
      rewrite compose_from_starter by exact Hb; f_equal.
    + exact (IH2 m o' E b).
    + rewrite (compose_from_composite _ _ _ _ Ev). exact (IH1 o' E v).
Qed.

Lemma compose_settle (d o : jsstring) :
  settle d = Some o -> Unicode.compose d = o.
Proof.
  destruct d as [|b d]; [now intros [= <-]|].
  intros H. pose proof (settle_head _ _ _ H) as Hb.
  cbn [Unicode.compose]. rewrite Hb.
  destruct d as [|m d].
  - rewrite settle_unit, Hb in H. now injection H as <-.
  - apply settle_cons_inv in H
      as [_ [(Hm & o' & E & ->) | (Hm & v & o' & Ev & E & ->)]].
    + exact (compose_from_settle _ _ E b).
    + rewrite (compose_from_composite _ _ _ _ Ev).
      exact (compose_from_settle _ _ E v).
Qed.

Lemma insert_by_ccc_front (c : code) (s : jsstring) :
  Unicode.starter c = true \/
  match s with [] => True | d :: _ => Unicode.starter d = true end ->
  Unicode.insert_by_ccc c s = c :: s.
Proof.
  destruct s as [|d s]; [reflexivity|]. cbn [Unicode.insert_by_ccc].
  unfold Unicode.starter. intros [H | H]; apply N.eqb_eq in H; rewrite H.
  - replace (Unicode.ccc d <? 0) with false by (symmetry; apply N.ltb_ge; lia).
    now rewrite andb_false_r.
  - reflexivity.
Qed.

Lemma canonical_order_settle (d : jsstring) :
  forall o, settle d = Some o -> Unicode.canonical_order d = d.
Proof.
  enough (H : (forall o, settle d = Some o -> Unicode.canonical_order d = d) /\
              (forall b o, settle (b :: d) = Some o ->
                 Unicode.canonical_order (b :: d) = b :: d))
    by apply H.
  induction d as [|m d [IH1 IH2]].
  - split; [reflexivity|]. intros b o _. reflexivity.
  - split; [exact (IH2 m)|].
    intros b o H.
    change (Unicode.insert_by_ccc b (Unicode.canonical_order (m :: d)) = b :: m :: d).
    apply settle_cons_inv in H
      as [Hb [(Hm & o' & E & ->) | (Hm & v & o' & Ev & E & ->)]].
    + rewrite (IH2 m o' E). apply insert_by_ccc_front. now left.
    + cbn [Unicode.canonical_order]. rewrite (IH1 o' E).
      rewrite (insert_by_ccc_front m d).
      * apply insert_by_ccc_front. now left.
      * right. destruct d as [|x d]; [exact I|]. exact (settle_head _ _ _ E).
Qed.

Lemma settle_app (d1 : jsstring) :
  forall d2 o1 o2, settle d1 = Some o1 -> settle d2 = Some o2 ->
  settle (d1 ++ d2) = Some (o1 ++ o2).
Proof.
  enough (H : (forall d2 o1 o2, settle d1 = Some o1 -> settle d2 = Some o2 ->
                 settle (d1 ++ d2) = Some (o1 ++ o2)) /\
              (forall b d2 o1 o2, settle (b :: d1) = Some o1 -> settle d2 = Some o2 ->
                 settle ((b :: d1) ++ d2) = Some (o1 ++ o2)))
    by apply H.
  induction d1 as [|m d1 [IH1 IH2]].
  - split.
    + intros d2 o1 o2 [= <-] H2. exact H2.
    + intros b d2 o1 o2 H1 H2. pose proof (settle_head _ _ _ H1) as Hb.
      rewrite settle_unit, Hb in H1. injection H1 as <-.
      cbn [app]. destruct d2 as [|x d2].
      * injection H2 as <-. now rewrite settle_unit, Hb.
      * pose proof (settle_head _ _ _ H2) as Hx.
        now rewrite settle_cons, Hb, Hx, H2.
  - split; [exact (IH2 m)|].
    intros b d2 o1 o2 H1 H2.
    apply settle_cons_inv in H1
      as [Hb [(Hm & o' & E & ->) | (Hm & v & o' & Ev & E & ->)]];
      cbn [app]; rewrite settle_cons, Hb, Hm.
    + change (m :: d1 ++ d2) with ((m :: d1) ++ d2).
      now rewrite (IH2 m d2 o' o2 E H2).
    + now rewrite Ev, (IH1 d2 o' o2 E H2).
Qed.

Lemma nfkc_settle (s o : jsstring) :
  settle (Unicode.decompose s) = Some o -> Unicode.nfkc s = o.
Proof.
  intros H. unfold Unicode.nfkc.
  rewrite (canonical_order_settle _ _ H). now apply compose_settle.
Qed.

Lemma starter_mark_free (c : code) :
  mem c combining_mark_sources = false -> Unicode.starter c = true.
Proof.
  intros Hc. unfold Unicode.starter, Unicode.ccc.
  destruct (Unicode.lookup c Unicode.combining_class_table) as [k|] eqn:E;
    [|reflexivity].
  apply (combining_class_table_forall (fun c _ => mem c combining_mark_sources))
    in E; [congruence | by_table].
Qed.

Lemma decompose_unit (c : code) : Unicode.decompose [c] = Unicode.decomposition c.
Proof. unfold Unicode.decompose. cbn [flat_map]. apply app_nil_r. Qed.


Lemma settle_decomposition (c : code) :
  mem c combining_mark_sources = false ->
  settle (Unicode.decomposition c) = Some (Unicode.nfkc [c]).
Proof.
  intros Hc.
  assert (H : exists o, settle (Unicode.decomposition c) = Some o).
  { unfold Unicode.decomposition.
    destruct (Unicode.lookup c Unicode.decomposition_table) as [l|] eqn:E.
    - apply (decomposition_table_forall
               (fun c l => mem c combining_mark_sources
                           || match settle l with Some _ => true | None => false end))
        in E; [|by_table].
      rewrite Hc in E. cbn [orb] in E.
      destruct (settle l) as [o|]; [now exists o | discriminate].
    - exists [c]. now rewrite settle_unit, starter_mark_free. }
  destruct H as (o & Ho). rewrite Ho. f_equal. symmetry.
  apply nfkc_settle. now rewrite decompose_unit.
Qed.

(** On a string without combining marks the normal form is taken code
    unit by code unit. *)
Lemma nfkc_mark_free (s : jsstring) :
  mark_free s -> Unicode.nfkc s = flat_map (fun c => Unicode.nfkc [c]) s.
Proof.
  intros Hs. apply nfkc_settle. unfold Unicode.decompose.
  induction Hs as [|c s Hc Hs IH]; [reflexivity|].
  cbn [flat_map]. apply settle_app; [now apply settle_decomposition | exact IH].
Qed.

Lemma clean_spec (c : code) :
  clean c = true <->
  mem c combining_mark_sources = false /\ Unicode.nfkc [c] = [c].
Proof.
  unfold clean. rewrite andb_true_iff, negb_true_iff, eqb_eq. reflexivity.
Qed.

Lemma clean_mark_free (s : jsstring) :
  Forall (fun c => clean c = true) s -> mark_free s.
Proof.
  apply Forall_impl. intros c Hc. now apply clean_spec in Hc.
Qed.

Lemma nfkc_clean (s : jsstring) :
  Forall (fun c => clean c = true) s -> Unicode.nfkc s = s.
Proof.
  intros Hs. rewrite nfkc_mark_free by now apply clean_mark_free.
  induction Hs as [|c s Hc Hs IH]; [reflexivity|].
  cbn [flat_map]. apply clean_spec in Hc as [_ ->]. now rewrite IH.
Qed.



(** ** Case analysis on the tables and ranges of the program *)

Lemma code_range_In (lo c : code) (n : nat) :
  lo <= c < lo + N.of_nat n -> In c (code_range lo n).
Proof.
  intros H. unfold code_range. apply in_map_iff.
  exists (N.to_nat (c - lo)). split; [lia|]. apply in_seq. lia.
Qed.

Lemma hiragana_forall (B : code -> bool) :
  forallb B (code_range 0x3041 86) = true ->
  forall c, hiragana c = true -> B c = true.
Proof.
  intros H c Hc. rewrite forallb_forall in H. apply H, code_range_In.
  unfold hiragana in Hc. apply andb_true_iff in Hc as [H1 H2].
  apply N.leb_le in H1, H2. lia.
Qed.


Lemma get_key_units (map : list (jsstring * jsstring)) (c : code) (v : jsstring) :
  JS.get map [c] = Some v -> In c (key_units map).
Proof.
  unfold key_units. induction map as [|[k w] map IH]; cbn [JS.get flat_map fst].
  - discriminate.
  - destruct (JS.eqb [c] k) eqn:E.
    + intros _. apply eqb_eq in E. subst k. now left.
    + intros H. apply in_or_app. right. now apply IH.
Qed.

Lemma devoice_forall (B : code -> code -> bool) :
  forallb (fun k => B k (devoice k)) (key_units dakuten_map) = true ->
  (forall c, voiced c = false -> B c c = true) ->
  forall c, B c (devoice c) = true.
Proof.
  intros Ht Hn c. destruct (JS.get dakuten_map [c]) as [v|] eqn:E.
  - rewrite forallb_forall in Ht. exact (Ht c (get_key_units _ _ _ E)).
  - unfold devoice. rewrite E. cbn [JS.or_else hd].
    apply Hn. unfold voiced. now rewrite E.
Qed.


(** ** Trailing marks and edge positions *)

Lemma strip_trailing_spec (s : jsstring) :
  exists n, s = strip_trailing s ++ repeat long_vowel_mark n.
Proof.
  induction s as [|c t (n & IH)] using rev_ind.
  - now exists 0%nat.
  - destruct (N.eq_dec c long_vowel_mark) as [-> | Hc].
    + exists (S n). rewrite strip_trailing_app_mark.
      rewrite IH at 1. rewrite <- app_assoc. f_equal.
      change [long_vowel_mark] with (repeat long_vowel_mark 1).
      rewrite <- repeat_app. f_equal. lia.
    + exists 0%nat. rewrite (strip_trailing_app_other _ _ Hc).
      symmetry. apply app_nil_r.
Qed.

Lemma strip_trailing_last (s : jsstring) :
  last_error (strip_trailing s) <> Some long_vowel_mark.
Proof.
  induction s as [|c t IH] using rev_ind; [discriminate|].
  destruct (N.eq_dec c long_vowel_mark) as [-> | Hc].
  - now rewrite strip_trailing_app_mark.
  - rewrite (strip_trailing_app_other _ _ Hc), last_error_app. congruence.
Qed.

Lemma strip_trailing_fix (s : jsstring) :
  last_error s <> Some long_vowel_mark -> strip_trailing s = s.
Proof.
  destruct s as [|c t _] using rev_ind; [reflexivity|].
  rewrite last_error_app. intros H. apply strip_trailing_app_other. congruence.
Qed.


Lemma last_error_In (s : jsstring) (c : code) : last_error s = Some c -> In c s.
Proof.
  destruct s as [|x t _] using rev_ind; [discriminate|].
  rewrite last_error_app. intros [= ->]. apply in_or_app. right. now left.
Qed.


Lemma last_error_cons (x y : code) (s : jsstring) :
  last_error (x :: y :: s) = last_error (y :: s).
Proof. reflexivity. Qed.


Lemma last_error_map_last (f : code -> code) (s : jsstring) :
  last_error (map_last f s) = option_map f (last_error s).
Proof.
  induction s as [|x [|y s] IH]; [reflexivity | reflexivity |].
  change (map_last f (x :: y :: s)) with (x :: map_last f (y :: s)).
  rewrite last_error_cons. destruct (map_last f (y :: s)) eqn:E.
  - destruct s; discriminate.
  - rewrite last_error_cons. exact IH.
Qed.

Lemma hd_error_edges (f : code -> code) (s : jsstring) :
  hd_error (edges f s) = option_map f (hd_error s).
Proof. destruct s as [|x [|y s]]; reflexivity. Qed.

Lemma last_error_edges (f : code -> code) (s : jsstring) :
  last_error (edges f s) = option_map f (last_error s).
Proof.
  destruct s as [|x [|y s]]; [reflexivity | reflexivity |].
  change (edges f (x :: y :: s)) with (f x :: map_last f (y :: s)).
  rewrite last_error_cons, <- last_error_map_last.
  destruct (map_last f (y :: s)) eqn:E; [destruct s; discriminate|].
  now rewrite last_error_cons.
Qed.

Lemma map_last_fix (f : code -> code) (s : jsstring) :
  (forall c, last_error s = Some c -> f c = c) -> map_last f s = s.
Proof.
  induction s as [|x [|y s] IH]; intros H; [reflexivity | |].
  - cbn [map_last]. now rewrite H.
  - change (map_last f (x :: y :: s)) with (x :: map_last f (y :: s)).
    f_equal. apply IH. exact H.
Qed.

Lemma edges_fix (f : code -> code) (s : jsstring) :
  (forall c, hd_error s = Some c -> f c = c) ->
  (forall c, last_error s = Some c -> f c = c) ->
  edges f s = s.
Proof.
  destruct s as [|x [|y s]]; intros Hh Hl; [reflexivity | |].
  - cbn [edges]. now rewrite Hh.
  - change (edges f (x :: y :: s)) with (f x :: map_last f (y :: s)).
    rewrite Hh by reflexivity. f_equal. apply map_last_fix. exact Hl.
Qed.




Lemma flat_map_fix (f : code -> jsstring) (s : jsstring) :
  Forall (fun c => f c = [c]) s -> flat_map f s = s.
Proof.
  induction 1 as [|c s Hc Hs IH]; cbn [flat_map]; [reflexivity | now rewrite Hc, IH].
Qed.

(** ** The passes on single code units *)


Lemma voiced_devoice (c : code) : voiced c = false -> devoice c = c.
Proof.
  unfold voiced, devoice. destruct (JS.get dakuten_map [c]) as [v|]; [|reflexivity].
  cbn [JS.truthy JS.or_else]. intros H. apply negb_false_iff in H. now rewrite H.
Qed.


Lemma substitute_cases (c : code) :
  substitute c = [c] \/ In c (key_units specialCases).
Proof.
  unfold substitute. destruct (JS.get specialCases [c]) as [to|] eqn:E.
  - right. exact (get_key_units _ _ _ E).
  - now left.
Qed.

Lemma clean_substitute (c : code) : clean c = true -> substitute c = [c].
Proof.
  intros Hc. destruct (substitute_cases c) as [H | H]; [exact H|].
  cbn in H. destruct H as [<- | [<- | []]]; vm_compute in Hc; discriminate.
Qed.









Lemma devoice_unvoiced (c : code) : voiced (devoice c) = false.
Proof.
  apply negb_true_iff.
  apply (devoice_forall (fun _ v => negb (voiced v))); [reflexivity|].
  intros x Hx. now rewrite Hx.
Qed.





(** * The canonical key of a string without combining marks *)




(** * Hiragana and small kana in the canonical key *)









(** * The properties of the specification *)

(** ** Hiragana (C4) *)


(** ** Small kana (C8) *)


(** ** Trailing long-vowel marks (C6) *)

(** C6.  [normalizeEnding] returns the width-normalised string without
    its trailing run of long-vowel marks and nothing else: what it drops
    is a run of marks at the end, and what it returns does not end in the
    mark.  Hence the keys of "ポケモンー" and "ポケモン" agree, the key
    of "ローラー" keeps its interior mark, and it differs from the key of
    "ロウラ". *)
Theorem normalizeEnding_trailing_only :
  (forall s, exists n,
      Unicode.nfkc s = normalizeEnding s ++ repeat long_vowel_mark n) /\
  (forall s, last_error (normalizeEnding s) <> Some long_vowel_mark) /\
  normalize (js "ポケモンー") = normalize (js "ポケモン") /\
  normalize (js "ローラー") = js "ローラ" /\
  normalize (js "ローラー") <> normalize (js "ロウラ").
Proof.
  split; [|split; [|split; [|split]]].
  - intros s. rewrite normalizeEnding_eq. apply strip_trailing_spec.
  - intros s. rewrite normalizeEnding_eq. apply strip_trailing_last.
  - vm_compute. reflexivity.
  - vm_compute. reflexivity.
  - vm_compute. discriminate.
Qed.

(** ** Idempotence (C1) *)




(** ** Edge devoicing (C5) *)








(** ** Script insensitivity (C7) *)

Lemma hiragana_unit (c : code) :
  hiragana c = true ->
  clean c = true /\ clean (c + 0x60) = true /\
  c <> long_vowel_mark /\ c + 0x60 <> long_vowel_mark /\
  lower_katakana (c + 0x60) = lower_katakana c.
Proof.
  intros Hc.
  apply (hiragana_forall
    (fun c => clean c && clean (c + 0x60)
              && negb (c =? long_vowel_mark) && negb (c + 0x60 =? long_vowel_mark)
              && (lower_katakana (c + 0x60) =? lower_katakana c))) in Hc;
    [|by_table].
  rewrite !andb_true_iff in Hc. destruct Hc as ((((H1 & H2) & H3) & H4) & H5).
  repeat split; try assumption.
  - now apply N.eqb_neq, negb_true_iff.
  - now apply N.eqb_neq, negb_true_iff.
  - now apply N.eqb_eq.
Qed.

Lemma key_of_clean (s : jsstring) :
  Forall (fun c => clean c = true) s ->
  Forall (fun c => c <> long_vowel_mark) s ->
  normalize s
  = map enlarge (Unicode.nfkc (edges devoice (map lower_katakana s))).
Proof.
  intros Hc Hm. rewrite normalize_eq.
  rewrite flat_map_fix.
  2:{ by_units Hc. now apply clean_substitute. }
  rewrite (nfkc_clean s Hc), strip_trailing_fix.
  2:{ intros E. apply last_error_In in E. rewrite Forall_forall in Hm.
      now apply (Hm _ E). }
  now rewrite (nfkc_clean s Hc).
Qed.

(** C7.  A hiragana string (every code unit in U+3041-U+3096) and its
    katakana transliteration, obtained unit by unit through the offset
    0x60, have the same canonical key. *)
Theorem script_insensitivity (h : jsstring) :
  Forall (fun c => hiragana c = true) h ->
  normalize h = normalize (map (fun c => c + 0x60) h).
Proof.
  intros Hh.
  rewrite (key_of_clean h), (key_of_clean (map (fun c => c + 0x60) h)).
  - rewrite map_map. do 3 f_equal. apply map_ext_Forall.
    revert Hh. apply Forall_impl. intros c Hc.
    symmetry. now apply hiragana_unit.
  - apply Forall_map. by_units Hh. now apply hiragana_unit.
  - apply Forall_map. by_units Hh. now apply hiragana_unit.
  - by_units Hh. now apply hiragana_unit.
  - by_units Hh. now apply hiragana_unit.
Qed.

(** C7, on "らいちゅう" and "ライチュウ". *)
Lemma script_insensitivity_witness :
  Forall (fun c => hiragana c = true) (js "らいちゅう") /\
  map (fun c => c + 0x60) (js "らいちゅう") = js "ライチュウ" /\
  normalize (js "らいちゅう") = normalize (map (fun c => c + 0x60) (js "らいちゅう")).
Proof.
  split; [|split].
  - vm_compute. repeat constructor.
  - vm_compute. reflexivity.
  - apply (script_insensitivity (js "らいちゅう")).
    vm_compute. repeat constructor.
Defined.

(** ** The chain validator *)

Lemma getShiritoriValidity_eq (prev next : option Pokemon) (curr : jsstring) :
  getShiritoriValidity prev next curr =
  if JS.eqb (JS.trim curr) [] then true
  else
    match prev with
    | Some p =>
      if JS.eqb (jpName p) [] then true
      else JS.startsWith (normalize curr) (lastCharacter (normalize (jpName p)))
    | None => true
    end
    &&
    match next with
    | Some p =>
      if JS.eqb (jpName p) [] then true
      else JS.endsWith (normalize curr)
             match normalize (jpName p) with
             | c :: _ => [c]
             | [] => JS.undefined_text
             end
    | None => true
    end.
Proof.
  unfold getShiritoriValidity.
  destruct (JS.eqb (JS.trim curr) []); [reflexivity|].
  f_equal.
  - destruct prev as [p|]; [|reflexivity].
    destruct (JS.eqb (jpName p) []); [reflexivity|].
    cbn [negb]. now rewrite slice_last.
  - destruct next as [p|]; [|reflexivity].
    destruct (JS.eqb (jpName p) []); [reflexivity|].
    cbn [negb]. now destruct (normalize (jpName p)).
Qed.

Lemma startsWith_nil (s : jsstring) : JS.startsWith s [] = true.
Proof. reflexivity. Qed.

(** Where the key of a present, non-empty successor name is not empty,
    the program computes the validator of the specification. *)
Lemma getShiritoriValidity_isValidLink (prev next : option Pokemon) (curr : jsstring) :
  (forall p, next = Some p -> jpName p <> [] -> normalize (jpName p) <> []) ->
  getShiritoriValidity prev next curr
  = isValidLink (option_map jpName prev) (option_map jpName next) curr.
Proof.
  intros Hnext. rewrite getShiritoriValidity_eq. unfold isValidLink.
  destruct (JS.trim curr) as [|t0 t]; [reflexivity|]. cbn [JS.eqb].
  f_equal.
  - destruct prev as [p|]; [|reflexivity]. cbn [option_map].
    destruct (jpName p); reflexivity.
  - destruct next as [p|]; [|reflexivity]. cbn [option_map].
    specialize (Hnext p eq_refl).
    destruct (jpName p) as [|n0 n] eqn:E; [reflexivity|]. cbn [JS.eqb].
    destruct (normalize (n0 :: n)) as [|k0 k] eqn:Ek; [|reflexivity].
    exfalso. apply Hnext; [discriminate | reflexivity].
Qed.

(** ** An empty key on a neighbour (C10) *)

(** C10.  Let a neighbour have a non-empty name whose key is empty (the
    name "ー"), and let the candidate not be blank.  As predecessor it
    constrains nothing: the verdict is the one without predecessor.  As
    successor its first character is [undefined], compared as the text
    "undefined": the verdict without predecessor is whether the
    candidate's key ends with that text, and with any predecessor it is
    [false] whenever the key does not. *)
Theorem empty_key_neighbour (p : Pokemon) (cand : jsstring) :
  jpName p <> [] -> normalize (jpName p) = [] -> JS.trim cand <> [] ->
  (forall next,
      getShiritoriValidity (Some p) next cand = getShiritoriValidity None next cand) /\
  getShiritoriValidity None (Some p) cand
  = JS.endsWith (normalize cand) (js "undefined") /\
  (forall prev,
      JS.endsWith (normalize cand) (js "undefined") = false ->
      getShiritoriValidity prev (Some p) cand = false).
Proof.
  intros Hname Hkey Hcand.
  apply eqb_neq in Hname, Hcand.
  change (js "undefined") with JS.undefined_text.
  split; [|split].
  - intros next. rewrite !getShiritoriValidity_eq, Hcand, Hname, Hkey. reflexivity.
  - rewrite getShiritoriValidity_eq, Hcand, Hname, Hkey. reflexivity.
  - intros prev H. rewrite getShiritoriValidity_eq, Hcand, Hname, Hkey, H.
    apply andb_false_r.
Qed.

(** C10, on the neighbour "ー" and the candidate "ア". *)
Lemma empty_key_neighbour_witness :
  let p := {| id := 1; name := js "long vowel mark"; jpName := js "ー";
              isFinalEvolution := false; isRestricted := false |} in
  (jpName p <> [] /\ normalize (jpName p) = [] /\ JS.trim (js "ア") <> []) /\
  getShiritoriValidity (Some p) None (js "ア") = true /\
  getShiritoriValidity None (Some p) (js "ア") = false.
Proof.
  intros p.
  assert (H1 : jpName p <> []) by (vm_compute; discriminate).
  assert (H2 : normalize (jpName p) = []) by by_table.
  assert (H3 : JS.trim (js "ア") <> []) by (vm_compute; discriminate).
  destruct (empty_key_neighbour p (js "ア") H1 H2 H3) as (Hp & Hn & _).
  split; [exact (conj H1 (conj H2 H3))|]. split.
  - rewrite Hp. vm_compute. reflexivity.
  - rewrite Hn. vm_compute. reflexivity.
Defined.

(** ** Agreement with the specification's validator (C2) *)

(** C2, at the failing input.  With no predecessor, a successor named
    "ー" (whose key is empty) and the candidate "ア", the specification's
    validator accepts, since the empty first character constrains nothing,
    while the program rejects: it reads [normalize(nextName)[0]], which is
    [undefined], and tests the key against the text "undefined". *)
Theorem getShiritoriValidity_empty_successor_key :
  let next := {| id := 1; name := js "long vowel mark"; jpName := js "ー";
                 isFinalEvolution := false; isRestricted := false |} in
  normalize (jpName next) = [] /\
  isValidLink None (Some (jpName next)) (js "ア") = true /\
  getShiritoriValidity None (Some next) (js "ア") = false /\
  getShiritoriValidity None (Some next) (js "undefined") = true.
Proof. vm_compute. repeat split; reflexivity. Qed.

(** With both neighbours absent every candidate is accepted, and a blank
    candidate is accepted whatever the neighbours. *)
Lemma getShiritoriValidity_permissive :
  (forall curr, getShiritoriValidity None None curr = true) /\
  (forall prev next curr,
      JS.trim curr = [] -> getShiritoriValidity prev next curr = true).
Proof.
  split.
  - intros curr. rewrite getShiritoriValidity_eq.
    now destruct (JS.eqb (JS.trim curr) []).
  - intros prev next curr H. rewrite getShiritoriValidity_eq, H. reflexivity.
Qed.

(** ** The special cases (C3) *)

(** The first pass replaces every fullwidth digit two (U+FF12) and every
    fullwidth capital Z (U+FF3A), and nothing else; the keys of
    "ポリゴン２" and "ポリゴンＺ" are those of their spelled-out forms. *)
Lemma normalizeSpecialCases_fullwidth :
  (forall s, normalizeSpecialCases s
             = flat_map (fun c => if c =? 0xFF12 then js "ツー"
                                  else if c =? 0xFF3A then js "ゼット"
                                  else [c]) s) /\
  normalize (js "ポリゴン２") = normalize (js "ポリゴンツー") /\
  normalize (js "ポリゴンＺ") = normalize (js "ポリゴンゼット").
Proof.
  split; [|split; vm_compute; reflexivity].
  intros s. rewrite normalizeSpecialCases_eq. apply flat_map_ext. intros c.
  unfold substitute, specialCases. cbn [JS.get JS.eqb]. rewrite !andb_true_r.
  destruct (c =? 0xFF12); [reflexivity|]. destruct (c =? 0xFF3A); reflexivity.
Qed.

(** C3, at the failing inputs.  The digit "2" (U+0032) and the letter "Z"
    (U+005A) that the comment above [normalizeSpecialCases] and the
    specification write are not keys of the table, which holds the
    fullwidth forms: the pass returns "ポリゴン2" and "ポリゴンZ"
    unchanged, and their keys end in "2" and "z" where the keys of
    "ポリゴンツー" and "ポリゴンゼット" end in "ツ" and "ト". *)
Theorem normalizeSpecialCases_ascii :
  normalizeSpecialCases (js "ポリゴン2") = js "ポリゴン2" /\
  normalizeSpecialCases (js "ポリゴンZ") = js "ポリゴンZ" /\
  lastCharacter (normalize (js "ポリゴン2")) = js "2" /\
  lastCharacter (normalize (js "ポリゴンツー")) = js "ツ" /\
  lastCharacter (normalize (js "ポリゴンZ")) = js "z" /\
  lastCharacter (normalize (js "ポリゴンゼット")) = js "ト".
Proof. vm_compute. repeat split; reflexivity. Qed.

(** ** Totality and pass-through (C9) *)




(** * Beyond the specification: the rest of [App] *)

(** * The thumbnail address *)

Lemma digits_inj u v : digits u = digits v -> u = v.
Proof.
  revert v; induction u; intros v; destruct v; cbn [digits]; intros H;
    try discriminate; try reflexivity; injection H as H; f_equal; now apply IHu.
Qed.

Lemma length_digits u : length (digits u) = Decimal.nb_digits u.
Proof. induction u; cbn [digits length Decimal.nb_digits]; congruence. Qed.


Lemma getThumbnail_loop_eq (fuel : nat) (s : jsstring) :
  getThumbnail_loop fuel s = repeat 0x30 (Nat.min fuel (4 - length s)) ++ s.
Proof.
  revert s; induction fuel as [|fuel IH]; intros s; [reflexivity|].
  cbn [getThumbnail_loop]. destruct (length s <? 4)%nat eqn:E.
  - apply Nat.ltb_lt in E. rewrite IH. cbn [length].
    replace (4 - length s)%nat with (S (4 - S (length s))) by lia.
    cbn [Nat.min repeat]. rewrite repeat_cons, <- app_assoc. reflexivity.
  - apply Nat.ltb_ge in E. replace (4 - length s)%nat with 0%nat by lia.
    now rewrite Nat.min_0_r.
Qed.

Lemma digits_zeros (k : nat) (u : Decimal.uint) :
  digits (Nat.iter k Decimal.D0 u) = repeat 0x30 k ++ digits u.
Proof.
  induction k as [|k IH]; [reflexivity|].
  change (Nat.iter (S k) Decimal.D0 u) with (Decimal.D0 (Nat.iter k Decimal.D0 u)).
  cbn [digits repeat app]. now rewrite IH.
Qed.

Lemma of_uint_zeros (k : nat) (u : Decimal.uint) :
  N.of_uint (Nat.iter k Decimal.D0 u) = N.of_uint u.
Proof.
  rewrite <- (DecimalN.Unsigned.of_uint_norm (Nat.iter k Decimal.D0 u)).
  rewrite DecimalFacts.unorm_iter_D0. apply DecimalN.Unsigned.of_uint_norm.
Qed.

Lemma of_lu_bound (d : Decimal.uint) :
  DecimalPos.Unsigned.of_lu d < 10 ^ N.of_nat (Decimal.nb_digits d).
Proof.
  induction d; cbn [DecimalPos.Unsigned.of_lu Decimal.nb_digits];
    try (rewrite Nat2N.inj_succ, N.pow_succ_r'; lia).
  cbn. lia.
Qed.

Lemma of_uint_bound (u : Decimal.uint) :
  N.of_uint u < 10 ^ N.of_nat (Decimal.nb_digits u).
Proof.
  unfold N.of_uint. rewrite DecimalPos.Unsigned.of_uint_alt.
  rewrite <- (DecimalFacts.nb_digits_rev u). apply of_lu_bound.
Qed.

Lemma Number_toString_long (id : N) :
  1000 <= id -> (4 <= length (Number_toString id))%nat.
Proof.
  intros H. unfold Number_toString. rewrite length_digits.
  pose proof (of_uint_bound (N.to_uint id)) as B.
  rewrite DecimalN.Unsigned.of_to in B.
  destruct (Nat.le_gt_cases 4 (Decimal.nb_digits (N.to_uint id))) as [L | L]; [exact L|].
  exfalso.
  assert (10 ^ N.of_nat (Decimal.nb_digits (N.to_uint id)) <= 10 ^ 3).
  { apply N.pow_le_mono_r; lia. }
  change (10 ^ 3) with 1000 in *. lia.
Qed.

Lemma Number_toString_short (id : N) :
  id < 10000 -> (length (Number_toString id) <= 4)%nat.
Proof.
  intros H.
  assert (E : forallb (fun n => (length (Number_toString n) <=? 4)%nat)
                      (code_range 0 (N.to_nat 10000)) = true) by (vm_compute; reflexivity).
  rewrite forallb_forall in E. apply Nat.leb_le, E, code_range_In.
  rewrite N2Nat.id. lia.
Qed.

Lemma getThumbnail_eq (id : N) :
  getThumbnail id
  = thumbnail_prefix
      ++ repeat 0x30 (4 - length (Number_toString id)) ++ Number_toString id
      ++ thumbnail_suffix.
Proof.
  unfold getThumbnail. rewrite getThumbnail_loop_eq.
  replace (Nat.min 4 (4 - length (Number_toString id)))
    with (4 - length (Number_toString id))%nat by lia.
  now rewrite <- app_assoc.
Qed.

Lemma getThumbnail_digits (id : N) :
  getThumbnail id
  = thumbnail_prefix
      ++ digits (Nat.iter (4 - length (Number_toString id)) Decimal.D0 (N.to_uint id))
      ++ thumbnail_suffix.
Proof. rewrite getThumbnail_eq, digits_zeros, <- app_assoc. reflexivity. Qed.

(** X1.  The address of a thumbnail.  It is the fixed prefix, a decimal
    numeral and the fixed suffix; the numeral has at least four digits and
    its value is the [id]. *)
Theorem getThumbnail_number (id : N) :
  id <= max_safe_integer ->
  exists u : Decimal.uint,
    getThumbnail id = thumbnail_prefix ++ digits u ++ thumbnail_suffix /\
    N.of_uint u = id /\ (4 <= Decimal.nb_digits u)%nat.
Proof.
  intros _.
  exists (Nat.iter (4 - length (Number_toString id)) Decimal.D0 (N.to_uint id)).
  split; [|split].
  - apply getThumbnail_digits.
  - rewrite of_uint_zeros. apply DecimalN.Unsigned.of_to.
  - rewrite <- length_digits, digits_zeros, length_app, repeat_length.
    unfold Number_toString, jsstring, code. lia.
Qed.

(** X1, on the [id] 25. *)
Lemma getThumbnail_number_witness :
  25 <= max_safe_integer /\
  exists u : Decimal.uint,
    getThumbnail 25 = thumbnail_prefix ++ digits u ++ thumbnail_suffix /\
    N.of_uint u = 25 /\ (4 <= Decimal.nb_digits u)%nat.
Proof.
  assert (H : 25 <= max_safe_integer) by (vm_compute; discriminate).
  split; [exact H | exact (getThumbnail_number 25 H)].
Defined.

(** X2.  Different entries, different thumbnails: [getThumbnail] is
    injective in the [id]. *)
Theorem getThumbnail_injective (a b : N) :
  a <= max_safe_integer -> b <= max_safe_integer ->
  getThumbnail a = getThumbnail b -> a = b.
Proof.
  intros _ _ H. rewrite !getThumbnail_digits in H.
  apply app_inv_head, app_inv_tail, digits_inj in H.
  apply (f_equal N.of_uint) in H. rewrite !of_uint_zeros in H.
  now rewrite !DecimalN.Unsigned.of_to in H.
Qed.

(** X2, on the [id] 25. *)
Lemma getThumbnail_injective_witness :
  25 <= max_safe_integer /\ getThumbnail 25 = getThumbnail 25 /\ 25 = 25.
Proof.
  assert (H : 25 <= max_safe_integer) by (vm_compute; discriminate).
  split; [exact H|]. split; [reflexivity|].
  exact (getThumbnail_injective 25 25 H H eq_refl).
Defined.

(** X3.  The padding.  The loop is over within four rounds, with a
    string of at least four units; an [id] below 10000 gives an address of
    one fixed length, and an [id] from 1000 on is not padded. *)
Theorem getThumbnail_width :
  (forall fuel s, (4 <= fuel)%nat ->
     getThumbnail_loop fuel s = getThumbnail_loop 4 s /\
     (4 <= length (getThumbnail_loop 4 s))%nat) /\
  (forall id, id < 10000 ->
     length (getThumbnail id) = (length thumbnail_prefix + 4 + length thumbnail_suffix)%nat) /\
  (forall id, 1000 <= id -> id <= max_safe_integer ->
     getThumbnail id = thumbnail_prefix ++ Number_toString id ++ thumbnail_suffix).
Proof.
  split; [|split].
  - intros fuel s H. rewrite !getThumbnail_loop_eq. split.
    + f_equal. f_equal. lia.
    + rewrite length_app, repeat_length. unfold jsstring, code. lia.
  - intros id H. pose proof (Number_toString_short id H).
    rewrite getThumbnail_eq, !length_app, repeat_length. lia.
  - intros id H _. pose proof (Number_toString_long id H).
    rewrite getThumbnail_eq.
    replace (4 - length (Number_toString id))%nat with 0%nat by lia. reflexivity.
Qed.

(** X3, on the [id]s 25 and 1025. *)
Lemma getThumbnail_width_witness :
  (25 < 10000 /\
   length (getThumbnail 25) = (length thumbnail_prefix + 4 + length thumbnail_suffix)%nat) /\
  (1000 <= 1025 /\ 1025 <= max_safe_integer /\
   getThumbnail 1025 = thumbnail_prefix ++ Number_toString 1025 ++ thumbnail_suffix).
Proof.
  assert (H1 : 25 < 10000) by reflexivity.
  assert (H2 : 1000 <= 1025) by (vm_compute; discriminate).
  assert (H3 : 1025 <= max_safe_integer) by (vm_compute; discriminate).
  split.
  - split; [exact H1 | exact (proj1 (proj2 getThumbnail_width) 25 H1)].
  - split; [exact H2|]. split; [exact H3|].
    exact (proj2 (proj2 getThumbnail_width) 1025 H2 H3).
Defined.

(** * The pickers and the state of [App] *)

(** ** Arrays *)

Lemma element_nat (A : Type) (a : list (option A)) (n : nat) :
  element a (Z.of_nat n)
  = match nth_error a n with Some v => v | None => None end.
Proof.
  unfold element. replace (Z.of_nat n <? 0)%Z with false
    by (symmetry; apply Z.ltb_ge; lia).
  now rewrite Nat2Z.id.
Qed.

Lemma nth_error_array_set_same (A : Type) (a : list (option A)) (i : nat) (v : option A) :
  nth_error (array_set a i v) i = Some v.
Proof.
  revert a; induction i as [|i IH]; intros [|x a]; cbn [array_set nth_error];
    try reflexivity; apply IH.
Qed.

Lemma nth_error_array_set_other (A : Type) (a : list (option A)) (i j : nat) (v : option A) :
  j <> i ->
  match nth_error (array_set a i v) j with Some w => w | None => None end
  = match nth_error a j with Some w => w | None => None end.
Proof.
  revert a j; induction i as [|i IH]; intros [|x a] [|j] Hj;
    cbn [array_set nth_error]; try reflexivity; try contradiction.
  - now destruct j.
  - rewrite IH by lia. now destruct j.
  - apply IH. lia.
Qed.

Lemma element_array_set_same (A : Type) (a : list (option A)) (i : nat) (v : option A) :
  element (array_set a i v) (Z.of_nat i) = v.
Proof. now rewrite element_nat, nth_error_array_set_same. Qed.

Lemma element_array_set_other (A : Type) (a : list (option A)) (i : nat) (j : Z)
      (v : option A) :
  j <> Z.of_nat i -> element (array_set a i v) j = element a j.
Proof.
  intros Hj. unfold element. destruct (j <? 0)%Z eqn:E; [reflexivity|].
  apply Z.ltb_ge in E. apply nth_error_array_set_other. lia.
Qed.

Lemma length_array_set (A : Type) (a : list (option A)) (i : nat) (v : option A) :
  (i < length a)%nat -> length (array_set a i v) = length a.
Proof.
  revert a; induction i as [|i IH]; intros [|x a] H; cbn [length] in *;
    cbn [array_set length]; try lia.
  rewrite IH; lia.
Qed.

Lemma array_set_Forall (A : Type) (P : option A -> Prop) (a : list (option A))
      (i : nat) (v : option A) :
  (i < length a)%nat -> P v -> Forall P a -> Forall P (array_set a i v).
Proof.
  revert a; induction i as [|i IH]; intros [|x a] H Hv Ha; cbn [length] in *;
    try lia; cbn [array_set]; inversion Ha; subst; constructor; auto.
  apply IH; auto; lia.
Qed.

(** ** The validator, one neighbour at a time *)

Lemma getShiritoriValidity_split (prev next : option Pokemon) (curr : jsstring) :
  getShiritoriValidity prev next curr
  = getShiritoriValidity prev None curr && getShiritoriValidity None next curr.
Proof.
  rewrite !getShiritoriValidity_eq.
  destruct (JS.eqb (JS.trim curr) []); [reflexivity|].
  now rewrite andb_true_r.
Qed.

Lemma startsWith_singleton (key : jsstring) (c : code) :
  JS.startsWith key [c] = true <-> hd_error key = Some c.
Proof.
  destruct key as [|k key].
  - split; discriminate.
  - rewrite startsWith_unit, N.eqb_eq. cbn [hd_error]. split; congruence.
Qed.

Lemma endsWith_singleton (key : jsstring) (c : code) :
  JS.endsWith key [c] = true <-> last_error key = Some c.
Proof.
  unfold JS.endsWith. destruct key as [|x t _] using rev_ind.
  - split; discriminate.
  - rewrite last_error_app, length_app. cbn [length].
    replace (length t + 1 - 1)%nat with (length t) by lia.
    rewrite skipn_app, skipn_all, Nat.sub_diag. cbn [app skipn].
    replace (1 <=? length t + 1)%nat with true by (symmetry; apply Nat.leb_le; lia).
    cbn [andb JS.eqb]. rewrite andb_true_r, N.eqb_eq. split; congruence.
Qed.

Lemma normalize_nonempty_name (s : jsstring) : normalize s <> [] -> s <> [].
Proof. intros H ->. now apply H. Qed.

Lemma follows_prev (q p : Pokemon) :
  ordinary q -> ordinary p ->
  getShiritoriValidity (Some q) None (jpName p) = true -> follows q p.
Proof.
  intros [_ Hq] [Hp _]. rewrite getShiritoriValidity_eq.
  apply eqb_neq in Hp. rewrite Hp.
  pose proof (normalize_nonempty_name _ Hq) as Hn. apply eqb_neq in Hn. rewrite Hn.
  rewrite andb_true_r. unfold lastCharacter.
  destruct (last_error (normalize (jpName q))) as [c|] eqn:E.
  - intros H. apply startsWith_singleton in H. now exists c.
  - exfalso. destruct (normalize (jpName q)) as [|x t _] using rev_ind;
      [now apply Hq | now rewrite last_error_app in E].
Qed.

Lemma follows_next (p r : Pokemon) :
  ordinary p -> ordinary r ->
  getShiritoriValidity None (Some r) (jpName p) = true -> follows p r.
Proof.
  intros [Hp _] [_ Hr]. rewrite getShiritoriValidity_eq.
  apply eqb_neq in Hp. rewrite Hp.
  pose proof (normalize_nonempty_name _ Hr) as Hn. apply eqb_neq in Hn. rewrite Hn.
  cbn [andb]. destruct (normalize (jpName r)) as [|c k] eqn:E; [congruence|].
  intros H. apply endsWith_singleton in H. exists c. rewrite E. now split.
Qed.

(** ** What a picker offers *)

Lemma offered_true (st : AppState) (index : nat) (p : Pokemon) :
  offered st index p = true <->
  isRestricted p = false /\
  (useOnlyFinalEvolutions st = true -> isFinalEvolution p = true) /\
  getShiritoriValidity (prevPokemon st index) (nextPokemon st index) (jpName p) = true /\
  (currentInput st index <> [] ->
   JS.startsWith (normalizeKana (jpName p)) (currentInput st index) = true).
Proof.
  unfold offered.
  destruct (isRestricted p); [split; [discriminate | intros [? _]; discriminate]|].
  destruct (useOnlyFinalEvolutions st), (isFinalEvolution p); cbn [andb negb];
    try (split; [discriminate | intros (_ & H & _); now specialize (H eq_refl)]);
    destruct (getShiritoriValidity _ _ _); cbn [negb];
    try (split; [discriminate | intros (_ & _ & H & _); discriminate]);
    destruct (currentInput st index) as [|c0 c]; cbn [JS.is_empty negb];
    (split; [intros H; repeat split; auto; try discriminate; now intros _
            | intros (_ & _ & _ & H); try reflexivity; apply H; discriminate]).
Qed.

Lemma filterOptions_filtered (data : list Pokemon) (st : AppState) (index : nat)
      (p : Pokemon) :
  In p (filterOptions data st index) -> In p (filtered data st index).
Proof.
  unfold filterOptions.
  destruct (JS.is_empty (rawInput st index) && absent (prevPokemon st index)
            && absent (nextPokemon st index)); [contradiction | auto].
Qed.

Lemma startsWith_prefix (s p : jsstring) :
  JS.startsWith s p = true <-> exists t, s = p ++ t.
Proof.
  unfold JS.startsWith. rewrite andb_true_iff, Nat.leb_le, eqb_eq. split.
  - intros [_ H]. exists (skipn (length p) s).
    rewrite <- H at 1. symmetry. apply firstn_skipn.
  - intros (t & ->). rewrite length_app, firstn_app, firstn_all, Nat.sub_diag.
    cbn [firstn]. split; [lia | apply List.app_nil_r].
Qed.

Lemma startsWith_trans (a b c : jsstring) :
  JS.startsWith a b = true -> JS.startsWith b c = true -> JS.startsWith a c = true.
Proof.
  rewrite !startsWith_prefix. intros (t & ->) (u & ->).
  exists (u ++ t). now rewrite app_assoc.
Qed.

(** X4.  What a picker shows.  Every entry in the list of picker [index]
    comes from the data, is not restricted, is a final evolution when the
    box is ticked, has a kana-normalised name that starts with the
    kana-normalised input when there is one, and chains with the
    neighbours: after an ordinary predecessor and before an ordinary
    successor. *)
Theorem filterOptions_sound (data : list Pokemon) (st : AppState) (index : nat)
        (p : Pokemon) :
  In p (filterOptions data st index) ->
  In p data /\ isRestricted p = false /\
  (useOnlyFinalEvolutions st = true -> isFinalEvolution p = true) /\
  (currentInput st index <> [] ->
   exists rest, normalizeKana (jpName p) = currentInput st index ++ rest) /\
  (ordinary p ->
   (forall q, prevPokemon st index = Some q -> ordinary q -> follows q p) /\
   (forall r, nextPokemon st index = Some r -> ordinary r -> follows p r)).
Proof.
  intros H. apply filterOptions_filtered, filter_In in H as [Hd Ho].
  apply offered_true in Ho as (Hr & Hf & Hv & Hi).
  rewrite getShiritoriValidity_split in Hv. apply andb_true_iff in Hv as [Hp Hn].
  repeat split; auto.
  - intros Hc. now apply startsWith_prefix, Hi.
  - intros q Hq Oq. rewrite Hq in Hp. now apply follows_prev.
  - intros r Hr' Or. rewrite Hr' in Hn. now apply follows_next.
Qed.

(** X4, on the first picker after "ぴ" was typed. *)
Lemma filterOptions_sound_witness :
  In pikachu (filterOptions sample_data sample_typed 0) /\
  In pikachu sample_data /\ isRestricted pikachu = false.
Proof.
  assert (H : In pikachu (filterOptions sample_data sample_typed 0))
    by (vm_compute; auto).
  split; [exact H|].
  destruct (filterOptions_sound sample_data sample_typed 0 pikachu H) as (H1 & H2 & _).
  split; [exact H1 | exact H2].
Defined.

(** X5.  Typing further narrows.  Between two states with the same
    selections and the same box, where the kana-normalised input of picker
    [index] in the second starts with that in the first, every entry the
    second state filters in is filtered in by the first. *)
Theorem filtered_narrows (data : list Pokemon) (st1 st2 : AppState) (index : nat)
        (p : Pokemon) :
  selectedPokemon st2 = selectedPokemon st1 ->
  useOnlyFinalEvolutions st2 = useOnlyFinalEvolutions st1 ->
  JS.startsWith (currentInput st2 index) (currentInput st1 index) = true ->
  In p (filtered data st2 index) -> In p (filtered data st1 index).
Proof.
  intros Hs Hf Hc H. apply filter_In in H as [Hd Ho]. apply filter_In.
  split; [exact Hd|].
  apply offered_true in Ho as (Hr & Hfin & Hv & Hi). apply offered_true.
  unfold prevPokemon, nextPokemon in *. rewrite Hs, Hf in *.
  repeat split; auto.
  intros Hne. apply startsWith_trans with (b := currentInput st2 index); [|exact Hc].
  apply Hi. intros E. rewrite E in Hc.
  apply startsWith_prefix in Hc as (t & Ht).
  destruct (currentInput st1 index); [now apply Hne | discriminate].
Qed.

(** X5, on the inputs "ぴ" and "ぴか". *)
Lemma filtered_narrows_witness :
  In pikachu (filtered sample_data
                (handle initialState (InputChange 0 (js "ぴか"))) 0) /\
  In pikachu (filtered sample_data sample_typed 0).
Proof.
  assert (H : In pikachu (filtered sample_data
                            (handle initialState (InputChange 0 (js "ぴか"))) 0))
    by (vm_compute; auto).
  split; [exact H|].
  apply (filtered_narrows sample_data sample_typed
           (handle initialState (InputChange 0 (js "ぴか"))) 0 pikachu);
    [reflexivity | reflexivity | vm_compute; reflexivity | exact H].
Defined.

Lemma filter_filter (A : Type) (f g : A -> bool) (l : list A) :
  filter f (filter g l) = filter (fun x => g x && f x) l.
Proof.
  induction l as [|x l IH]; [reflexivity|]. cbn [filter].
  destruct (g x); cbn [filter andb]; [destruct (f x)|]; now rewrite IH.
Qed.

(** X6.  Ticking the box filters the list again.  With the box ticked
    picker [index] filters in exactly the final evolutions among the
    entries it filters in with the box cleared, in the same order. *)
Theorem filtered_final_only (data : list Pokemon) (st : AppState) (index : nat) :
  filtered data (handle st (FinalOnly true)) index
  = filter isFinalEvolution (filtered data (handle st (FinalOnly false)) index).
Proof.
  unfold filtered. rewrite filter_filter. apply filter_ext. intros p.
  unfold offered, currentInput, rawInput, prevPokemon, nextPokemon.
  cbn [handle inputValues selectedPokemon useOnlyFinalEvolutions andb].
  destruct (isRestricted p); [reflexivity|].
  destruct (isFinalEvolution p); cbn [negb]; [now rewrite andb_true_r|].
  now rewrite andb_false_r.
Qed.

(** ** Typing in either script *)

Lemma trimStart_fix (s : jsstring) :
  match s with c :: _ => JS.white_space c = false | [] => True end ->
  JS.trimStart s = s.
Proof. destruct s as [|c s]; [reflexivity|]. cbn [JS.trimStart]. now intros ->. Qed.

Lemma trim_fix (s : jsstring) :
  Forall (fun c => JS.white_space c = false) s -> JS.trim s = s.
Proof.
  intros H. unfold JS.trim, JS.trimEnd.
  rewrite (trimStart_fix s) by (destruct H; auto).
  rewrite trimStart_fix; [apply rev_involutive|].
  apply Forall_rev in H. destruct H; auto.
Qed.

Lemma hiragana_not_space (c : code) : hiragana c = true -> JS.white_space c = false.
Proof.
  intros H. apply negb_true_iff. revert c H.
  apply (hiragana_forall (fun c => negb (JS.white_space c))). by_table.
Qed.

Lemma katakana_not_space (c : code) :
  hiragana c = true -> JS.white_space (c + 0x60) = false.
Proof.
  intros H. apply negb_true_iff. revert c H.
  apply (hiragana_forall (fun c => negb (JS.white_space (c + 0x60)))). by_table.
Qed.

Lemma normalizeKana_hiragana (h : jsstring) :
  Forall (fun c => hiragana c = true) h ->
  normalizeKana h = map (fun c => c + 0x60) h /\
  normalizeKana (map (fun c => c + 0x60) h) = map (fun c => c + 0x60) h.
Proof.
  intros Hh. rewrite !normalizeKana_eq.
  rewrite (nfkc_clean h), (nfkc_clean (map (fun c => c + 0x60) h)).
  - split.
    + apply map_ext_Forall. by_units Hh.
      unfold lower_katakana, to_katakana. rewrite H.
      apply (hiragana_forall (fun c => JS.lower (c + 0x60) =? c + 0x60)) in H;
        [now apply N.eqb_eq | by_table].
    + rewrite map_map. apply map_ext_Forall. by_units Hh.
      apply (hiragana_forall
               (fun c => lower_katakana (c + 0x60) =? c + 0x60)) in H;
        [now apply N.eqb_eq | by_table].
  - apply Forall_map. by_units Hh. now apply hiragana_unit.
  - by_units Hh. now apply hiragana_unit.
Qed.

(** X7.  Hiragana and katakana input filter alike.  Whether the user
    types a hiragana string or its katakana transliteration into picker
    [index], the picker filters in the same entries; the input it compares
    with is the katakana string. *)
Theorem filtered_script_insensitive (data : list Pokemon) (st : AppState)
        (index : nat) (h : jsstring) :
  Forall (fun c => hiragana c = true) h ->
  currentInput (handle st (InputChange index h)) index = map (fun c => c + 0x60) h /\
  filtered data (handle st (InputChange index h)) index
  = filtered data (handle st (InputChange index (map (fun c => c + 0x60) h))) index.
Proof.
  intros Hh.
  assert (Hc : forall v,
             currentInput (handle st (InputChange index v)) index
             = normalizeKana (JS.trim v)).
  { intros v. unfold currentInput, rawInput. cbn [handle inputValues].
    rewrite element_array_set_same. cbn [JS.or_else]. now destruct v. }
  assert (E1 : currentInput (handle st (InputChange index h)) index
               = map (fun c => c + 0x60) h).
  { rewrite Hc, trim_fix; [now apply normalizeKana_hiragana|].
    by_units Hh. now apply hiragana_not_space. }
  assert (E2 : currentInput (handle st (InputChange index (map (fun c => c + 0x60) h))) index
               = map (fun c => c + 0x60) h).
  { rewrite Hc, trim_fix; [now apply normalizeKana_hiragana|].
    apply Forall_map. by_units Hh. now apply katakana_not_space. }
  split; [exact E1|].
  unfold filtered. apply filter_ext. intros p. unfold offered.
  rewrite E1, E2. reflexivity.
Qed.

(** X7, on the inputs "ぴ" and "ピ". *)
Lemma filtered_script_insensitive_witness :
  Forall (fun c => hiragana c = true) sample_input /\
  filtered sample_data sample_typed 0
  = filtered sample_data
      (handle initialState (InputChange 0 (map (fun c => c + 0x60) sample_input))) 0.
Proof.
  assert (H : Forall (fun c => hiragana c = true) sample_input)
    by (repeat constructor).
  split; [exact H|].
  exact (proj2 (filtered_script_insensitive sample_data initialState 0 sample_input H)).
Defined.

(** ** The sorted options *)

Lemma insert_by_id_perm (p : Pokemon) (l : list Pokemon) :
  Permutation (insert_by_id p l) (p :: l).
Proof.
  induction l as [|q l IH]; cbn [insert_by_id]; [reflexivity|].
  destruct (id p <=? id q); [reflexivity|].
  rewrite IH. apply perm_swap.
Qed.

Lemma insert_by_id_sorted (p : Pokemon) (l : list Pokemon) :
  StronglySorted (fun a b => id a <= id b) l ->
  StronglySorted (fun a b => id a <= id b) (insert_by_id p l).
Proof.
  induction 1 as [|q l Hl IH Hq]; cbn [insert_by_id].
  - repeat constructor.
  - destruct (id p <=? id q) eqn:E.
    + apply N.leb_le in E. constructor; [now constructor|].
      constructor; [exact E|]. revert Hq. apply Forall_impl. intros r Hr. lia.
    + apply N.leb_gt in E. constructor; [exact IH|].
      rewrite (insert_by_id_perm p l). constructor; [lia | exact Hq].
Qed.

Lemma insert_by_id_filter (k : N) (p : Pokemon) (l : list Pokemon) :
  filter (fun x => id x =? k) (insert_by_id p l)
  = filter (fun x => id x =? k) (p :: l).
Proof.
  induction l as [|q l IH]; cbn [insert_by_id]; [reflexivity|].
  destruct (id p <=? id q) eqn:E; [reflexivity|].
  apply N.leb_gt in E. cbn [filter] in *. rewrite IH.
  destruct (id p =? k) eqn:Ep; [|reflexivity].
  apply N.eqb_eq in Ep.
  replace (id q =? k) with false by (symmetry; apply N.eqb_neq; lia).
  reflexivity.
Qed.

(** X8.  The [options] of a picker are the entries it filters in, in
    ascending order of [id], entries with the same [id] keeping the order
    they have in the data. *)
Theorem options_sorted (data : list Pokemon) (st : AppState) (index : nat) :
  Permutation (options data st index) (filtered data st index) /\
  StronglySorted (fun a b => id a <= id b) (options data st index) /\
  (forall k, filter (fun p => id p =? k) (options data st index)
             = filter (fun p => id p =? k) (filtered data st index)).
Proof.
  unfold options. generalize (filtered data st index) as l. intros l.
  induction l as [|p l (IHp & IHs & IHf)]; cbn [sort_by_id fold_right].
  - repeat split; constructor.
  - fold (sort_by_id l). split; [|split].
    + rewrite insert_by_id_perm. now constructor.
    + now apply insert_by_id_sorted.
    + intros k. rewrite insert_by_id_filter. cbn [filter]. now rewrite IHf.
Qed.

(** ** The states of [App] *)

Lemma reachable_invariant (data : list Pokemon) (st : AppState) :
  reachable data st ->
  (length (inputValues st) = 6%nat /\
   Forall (fun v => v <> None) (inputValues st) /\
   length (selectedPokemon st) = 6%nat) /\
  (forall j p, element (selectedPokemon st) j = Some p ->
               In p data /\ isRestricted p = false) /\
  linked (selectedPokemon st).
Proof.
  induction 1 as [|st e Hst ((Hli & Hno & Hls) & Hd & Hl) He].
  - split; [|split].
    + cbn. repeat split; auto. repeat constructor; discriminate.
    + intros j p. unfold element. cbn [initialState selectedPokemon].
      destruct (j <? 0)%Z; [discriminate|].
      destruct (Z.to_nat j) as [|[|[|[|[|[|[|n]]]]]]]; discriminate.
    + intros i p q. unfold element. cbn [initialState selectedPokemon].
      destruct (Z.of_nat i <? 0)%Z; [discriminate|].
      destruct (Z.to_nat (Z.of_nat i)) as [|[|[|[|[|[|[|n]]]]]]]; discriminate.
  - destruct e as [index v | index v | checked];
      cbn [handle inputValues selectedPokemon enabled] in *.
    + split; [|now split].
      repeat split; auto.
      * rewrite length_array_set; lia.
      * apply array_set_Forall; [lia | discriminate | exact Hno].
    + assert (Hidx : (index < 6)%nat) by (destruct v; tauto).
      split; [|split].
      * repeat split; auto. rewrite length_array_set; lia.
      * intros j p Hj.
        destruct (Z.eq_dec j (Z.of_nat index)) as [-> | Hne].
        -- rewrite element_array_set_same in Hj. subst v.
           destruct He as [_ He].
           apply filterOptions_filtered, filter_In in He as [Hin Ho].
           apply offered_true in Ho. tauto.
        -- rewrite element_array_set_other in Hj by exact Hne. eauto.
      * intros i p q Hp Hq.
        destruct (Nat.eq_dec i index) as [-> | Hi].
        -- rewrite element_array_set_same in Hp. subst v.
           rewrite element_array_set_other in Hq by lia.
           destruct He as [_ He].
           apply filterOptions_filtered, filter_In in He as [_ Ho].
           apply offered_true in Ho as (_ & _ & Hv & _).
           rewrite getShiritoriValidity_split in Hv.
           apply andb_true_iff in Hv as [_ Hv].
           unfold nextPokemon in Hv. rewrite Hq in Hv. now right.
        -- rewrite element_array_set_other in Hp by lia.
           destruct (Nat.eq_dec (S i) index) as [<- | Hi'].
           ++ replace (Z.of_nat i + 1)%Z with (Z.of_nat (S i)) in Hq by lia.
              rewrite element_array_set_same in Hq. subst v.
              destruct He as [_ He].
              apply filterOptions_filtered, filter_In in He as [_ Ho].
              apply offered_true in Ho as (_ & _ & Hv & _).
              rewrite getShiritoriValidity_split in Hv.
              apply andb_true_iff in Hv as [Hv _].
              unfold prevPokemon in Hv.
              replace (Z.of_nat (S i) - 1)%Z with (Z.of_nat i) in Hv by lia.
              rewrite Hp in Hv. now left.
           ++ rewrite element_array_set_other in Hq by lia. eauto.
    + split; [|split]; [repeat split; assumption | exact Hd | exact Hl].
Qed.

(** The sample state is one [App] can reach. *)
Lemma sample_state_reachable : reachable sample_data sample_state.
Proof.
  unfold sample_state, sample_typed.
  apply reachable_handle;
    [apply reachable_handle; [apply reachable_handle; [apply reachable_initial|]|]|].
  - cbn [enabled]. lia.
  - split; [lia|]. vm_compute. auto.
  - split; [lia|]. vm_compute. auto.
Qed.

(** X9.  Six slots, always.  In every state [App] can reach, the inputs
    and the selections have six slots each and no input slot is a hole, so
    no picker reads past its arrays: the only reads outside are those of
    the first picker for a predecessor and of the last for a successor,
    and both find none. *)
Theorem reachable_six_slots (data : list Pokemon) (st : AppState) :
  reachable data st ->
  length (inputValues st) = 6%nat /\ length (selectedPokemon st) = 6%nat /\
  (forall index, (index < 6)%nat ->
     exists v, nth_error (inputValues st) index = Some (Some v)) /\
  prevPokemon st 0 = None /\ nextPokemon st 5 = None.
Proof.
  intros H. destruct (reachable_invariant data st H) as ((Hli & Hno & Hls) & _ & _).
  repeat split; auto.
  - intros index Hi.
    destruct (nth_error (inputValues st) index) as [[v|]|] eqn:E.
    + now exists v.
    + apply nth_error_In in E. rewrite Forall_forall in Hno. now apply Hno in E.
    + apply nth_error_None in E. lia.
  - unfold nextPokemon. change (Z.of_nat 5 + 1)%Z with (Z.of_nat 6).
    rewrite element_nat.
    destruct (nth_error (selectedPokemon st) 6) eqn:E; [|reflexivity].
    assert (Hs : nth_error (selectedPokemon st) 6 <> None) by congruence.
    apply nth_error_Some in Hs. lia.
Qed.

(** X9, on the sample state. *)
Lemma reachable_six_slots_witness :
  reachable sample_data sample_state /\
  length (inputValues sample_state) = 6%nat /\
  length (selectedPokemon sample_state) = 6%nat.
Proof.
  split; [exact sample_state_reachable|].
  destruct (reachable_six_slots sample_data sample_state sample_state_reachable)
    as (H1 & H2 & _).
  split; [exact H1 | exact H2].
Defined.

(** X10.  Only listed entries get selected.  In every state [App] can
    reach, a selected entry is one of the data and is not restricted. *)
Theorem reachable_selected_from_data (data : list Pokemon) (st : AppState) :
  reachable data st ->
  forall index p, nth_error (selectedPokemon st) index = Some (Some p) ->
                  In p data /\ isRestricted p = false.
Proof.
  intros H index p Hp.
  destruct (reachable_invariant data st H) as (_ & Hd & _).
  apply (Hd (Z.of_nat index)). now rewrite element_nat, Hp.
Qed.

(** X10, on the second slot of the sample state. *)
Lemma reachable_selected_from_data_witness :
  reachable sample_data sample_state /\
  nth_error (selectedPokemon sample_state) 1 = Some (Some arcanine) /\
  In arcanine sample_data /\ isRestricted arcanine = false.
Proof.
  split; [exact sample_state_reachable|]. split; [reflexivity|].
  exact (reachable_selected_from_data sample_data sample_state sample_state_reachable
           1%nat arcanine eq_refl).
Defined.

(** The validator has an opinion on both sample names. *)
Lemma sample_ordinary : ordinary pikachu /\ ordinary arcanine.
Proof. repeat split; vm_compute; discriminate. Qed.

(** X11.  The chain on screen is a chain.  In every state [App] can
    reach, two ordinary entries selected in adjacent slots chain: the last
    character of the key of the first is the first character of the key of
    the second. *)
Theorem reachable_chain (data : list Pokemon) (st : AppState) :
  reachable data st ->
  forall index p q,
    nth_error (selectedPokemon st) index = Some (Some p) ->
    nth_error (selectedPokemon st) (S index) = Some (Some q) ->
    ordinary p -> ordinary q -> follows p q.
Proof.
  intros H index p q Hp Hq Op Oq.
  destruct (reachable_invariant data st H) as (_ & _ & Hl).
  destruct (Hl index p q) as [Hv | Hv].
  - now rewrite element_nat, Hp.
  - replace (Z.of_nat index + 1)%Z with (Z.of_nat (S index)) by lia.
    now rewrite element_nat, Hq.
  - now apply follows_prev.
  - now apply follows_next.
Qed.

(** X11, on ピカチュウ and ウインディ in the sample state. *)
Lemma reachable_chain_witness :
  reachable sample_data sample_state /\
  nth_error (selectedPokemon sample_state) 0 = Some (Some pikachu) /\
  nth_error (selectedPokemon sample_state) 1 = Some (Some arcanine) /\
  ordinary pikachu /\ ordinary arcanine /\ follows pikachu arcanine.
Proof.
  split; [exact sample_state_reachable|].
  split; [reflexivity|]. split; [reflexivity|].
  split; [exact (proj1 sample_ordinary)|]. split; [exact (proj2 sample_ordinary)|].
  exact (reachable_chain sample_data sample_state sample_state_reachable
           0%nat pikachu arcanine eq_refl eq_refl
           (proj1 sample_ordinary) (proj2 sample_ordinary)).
Defined.

(** X12.  Events are local.  Typing into picker [index] changes the input
    that picker reads, to the trimmed text, and the list of no other
    picker; selecting in picker [index] changes no input and the lists of
    the two adjacent pickers only. *)
Theorem handlers_local (data : list Pokemon) (st : AppState) (index : nat) :
  (forall v, rawInput (handle st (InputChange index v)) index = JS.trim v) /\
  (forall v j, j <> index ->
     filtered data (handle st (InputChange index v)) j = filtered data st j /\
     filterOptions data (handle st (InputChange index v)) j = filterOptions data st j) /\
  (forall v, prevPokemon (handle st (Change index v)) (S index) = v) /\
  (forall v j, S j = index -> nextPokemon (handle st (Change index v)) j = v) /\
  (forall v j, j <> S index -> S j <> index ->
     filtered data (handle st (Change index v)) j = filtered data st j /\
     filterOptions data (handle st (Change index v)) j = filterOptions data st j).
Proof.
  split; [|split; [|split; [|split]]].
  - intros v. unfold rawInput. cbn [handle inputValues].
    rewrite element_array_set_same. cbn [JS.or_else]. now destruct v.
  - intros v j Hj.
    assert (E : rawInput (handle st (InputChange index v)) j = rawInput st j).
    { unfold rawInput. cbn [handle inputValues].
      rewrite element_array_set_other by lia. reflexivity. }
    unfold filterOptions, filtered, offered, currentInput. rewrite E.
    unfold prevPokemon, nextPokemon. cbn [handle selectedPokemon useOnlyFinalEvolutions].
    now split.
  - intros v. unfold prevPokemon. cbn [handle selectedPokemon].
    replace (Z.of_nat (S index) - 1)%Z with (Z.of_nat index) by lia.
    apply element_array_set_same.
  - intros v j <-. unfold nextPokemon. cbn [handle selectedPokemon].
    replace (Z.of_nat j + 1)%Z with (Z.of_nat (S j)) by lia.
    apply element_array_set_same.
  - intros v j H1 H2.
    assert (Ep : prevPokemon (handle st (Change index v)) j = prevPokemon st j).
    { unfold prevPokemon. cbn [handle selectedPokemon].
      apply element_array_set_other. lia. }
    assert (En : nextPokemon (handle st (Change index v)) j = nextPokemon st j).
    { unfold nextPokemon. cbn [handle selectedPokemon].
      apply element_array_set_other. lia. }
    unfold filterOptions, filtered, offered, currentInput, rawInput.
    rewrite Ep, En. cbn [handle inputValues useOnlyFinalEvolutions]. now split.
Qed.

(** X12, on events of the first picker. *)
Lemma handlers_local_witness :
  (1 <> 0)%nat /\
  filtered sample_data (handle initialState (InputChange 0 sample_input)) 1
  = filtered sample_data initialState 1 /\
  (3 <> 1)%nat /\ (4 <> 0)%nat /\
  filtered sample_data (handle initialState (Change 0 (Some pikachu))) 3
  = filtered sample_data initialState 3.
Proof.
  assert (H1 : (1 <> 0)%nat) by discriminate.
  assert (H2 : (3 <> 1)%nat) by discriminate.
  assert (H3 : (4 <> 0)%nat) by discriminate.
  destruct (handlers_local sample_data initialState 0) as (_ & Hi & _ & _ & Hc).
  split; [exact H1|]. split; [exact (proj1 (Hi sample_input 1%nat H1))|].
  split; [exact H2|]. split; [exact H3|].
  exact (proj1 (Hc (Some pikachu) 3%nat H2 H3)).
Defined.

(** ** The two directions of a link *)

Lemma last_error_nonempty (s : jsstring) : s <> [] -> exists c, last_error s = Some c.
Proof.
  destruct s as [|x t _] using rev_ind; [congruence|].
  intros _. exists x. apply last_error_app.
Qed.

Lemma follows_verdicts (p q : Pokemon) :
  ordinary p -> ordinary q ->
  (getShiritoriValidity (Some p) None (jpName q) = true <-> follows p q) /\
  (getShiritoriValidity None (Some q) (jpName p) = true <-> follows p q).
Proof.
  intros Op Oq. split; (split; [now (apply follows_prev || apply follows_next)|]).
  - destruct Op as [_ Hp], Oq as [Hq _]. intros (c & Hl & Hh).
    rewrite getShiritoriValidity_eq. apply eqb_neq in Hq. rewrite Hq.
    pose proof (normalize_nonempty_name _ Hp) as Hn. apply eqb_neq in Hn. rewrite Hn.
    rewrite andb_true_r. unfold lastCharacter. rewrite Hl.
    now apply startsWith_singleton.
  - destruct Op as [Hp _], Oq as [_ Hq]. intros (c & Hl & Hh).
    rewrite getShiritoriValidity_eq. apply eqb_neq in Hp. rewrite Hp.
    pose proof (normalize_nonempty_name _ Hq) as Hn. apply eqb_neq in Hn. rewrite Hn.
    cbn [andb]. destruct (normalize (jpName q)) as [|c' k]; [discriminate|].
    injection Hh as ->. now apply endsWith_singleton.
Qed.

(** X13.  The two pickers of a link agree.  For ordinary entries [p] and
    [q], the picker after [p] accepts [q] exactly when the picker before
    [q] accepts [p]: both verdicts say that the key of [q] starts with the
    unit the key of [p] ends with. *)
Theorem getShiritoriValidity_symmetric (p q : Pokemon) :
  ordinary p -> ordinary q ->
  getShiritoriValidity (Some p) None (jpName q)
  = getShiritoriValidity None (Some q) (jpName p) /\
  (getShiritoriValidity (Some p) None (jpName q) = true <-> follows p q).
Proof.
  intros Op Oq. destruct (follows_verdicts p q Op Oq) as [H1 H2].
  split; [|exact H1].
  destruct (getShiritoriValidity (Some p) None (jpName q)),
           (getShiritoriValidity None (Some q) (jpName p)); try reflexivity.
  - symmetry. apply H2, H1. reflexivity.
  - apply H1, H2. reflexivity.
Qed.

(** X13, on ピカチュウ and ウインディ. *)
Lemma getShiritoriValidity_symmetric_witness :
  ordinary pikachu /\ ordinary arcanine /\
  getShiritoriValidity (Some pikachu) None (jpName arcanine)
  = getShiritoriValidity None (Some arcanine) (jpName pikachu).
Proof.
  split; [exact (proj1 sample_ordinary)|]. split; [exact (proj2 sample_ordinary)|].
  exact (proj1 (getShiritoriValidity_symmetric pikachu arcanine
                  (proj1 sample_ordinary) (proj2 sample_ordinary))).
Defined.

(** ** A picker that shows nothing *)

Lemma trimStart_blank (v : jsstring) :
  Forall (fun c => JS.white_space c = true) v -> JS.trimStart v = [].
Proof. induction 1 as [|c v Hc _ IH]; [reflexivity|]. cbn [JS.trimStart]. now rewrite Hc. Qed.

Lemma trim_blank (v : jsstring) :
  Forall (fun c => JS.white_space c = true) v -> JS.trim v = [].
Proof. intros H. unfold JS.trim. now rewrite trimStart_blank. Qed.

(** X14.  [shouldGate].  A picker without neighbours whose input is empty or
    white space only shows nothing, whatever the data, although it filters
    in every unrestricted entry (every unrestricted final evolution when
    the box is ticked); a picker with an input or a neighbour shows the
    entries it filters in, in the order of the data. *)
Theorem filterOptions_shouldGate (data : list Pokemon) (st : AppState) (index : nat) :
  (forall v, Forall (fun c => JS.white_space c = true) v ->
     prevPokemon st index = None -> nextPokemon st index = None ->
     filterOptions data (handle st (InputChange index v)) index = [] /\
     filtered data (handle st (InputChange index v)) index
     = filter (fun p => negb (isRestricted p)
                        && (negb (useOnlyFinalEvolutions st) || isFinalEvolution p))
              data) /\
  (rawInput st index <> [] \/ prevPokemon st index <> None
   \/ nextPokemon st index <> None ->
   filterOptions data st index = filtered data st index).
Proof.
  split.
  - intros v Hv Hp Hn.
    assert (Er : rawInput (handle st (InputChange index v)) index = []).
    { unfold rawInput. cbn [handle inputValues]. rewrite element_array_set_same.
      cbn [JS.or_else]. destruct v; [reflexivity | now apply trim_blank]. }
    assert (Ep : prevPokemon (handle st (InputChange index v)) index = None) by exact Hp.
    assert (En : nextPokemon (handle st (InputChange index v)) index = None) by exact Hn.
    split.
    + unfold filterOptions. now rewrite Er, Ep, En.
    + unfold filtered. apply filter_ext. intros p. unfold offered, currentInput.
      rewrite Er, Ep, En. cbn [handle useOnlyFinalEvolutions].
      rewrite (proj1 getShiritoriValidity_permissive).
      destruct (isRestricted p), (useOnlyFinalEvolutions st), (isFinalEvolution p);
        reflexivity.
  - intros H. unfold filterOptions.
    destruct (rawInput st index) as [|c r]; cbn [JS.is_empty andb]; [|reflexivity].
    destruct (prevPokemon st index); cbn [absent andb]; [reflexivity|].
    destruct (nextPokemon st index); cbn [absent]; [reflexivity|].
    destruct H as [H | [H | H]]; congruence.
Qed.

(** X14, on a picker with two spaces typed and on one with "ぴ". *)
Lemma filterOptions_shouldGate_witness :
  (Forall (fun c => JS.white_space c = true) (js "  ") /\
   prevPokemon initialState 2 = None /\ nextPokemon initialState 2 = None /\
   filterOptions sample_data (handle initialState (InputChange 2 (js "  "))) 2 = []) /\
  (rawInput sample_typed 0 <> [] /\
   filterOptions sample_data sample_typed 0 = filtered sample_data sample_typed 0).
Proof.
  assert (H1 : Forall (fun c => JS.white_space c = true) (js "  "))
    by (vm_compute; repeat constructor).
  assert (H2 : rawInput sample_typed 0 <> []) by (vm_compute; discriminate).
  split.
  - split; [exact H1|]. split; [reflexivity|]. split; [reflexivity|].
    exact (proj1 (proj1 (filterOptions_shouldGate sample_data initialState 2)
                    (js "  ") H1 eq_refl eq_refl)).
  - split; [exact H2|].
    exact (proj2 (filterOptions_shouldGate sample_data sample_typed 0) (or_introl H2)).
Defined.

(** X15.  Clearing widens.  Clearing the selection of any picker removes
    no entry from what any picker filters in. *)
Theorem clearing_widens (data : list Pokemon) (st : AppState) (index j : nat)
        (p : Pokemon) :
  In p (filtered data st j) ->
  In p (filtered data (handle st (Change index None)) j).
Proof.
  intros H. apply filter_In in H as [Hd Ho]. apply filter_In. split; [exact Hd|].
  apply offered_true in Ho as (Hr & Hf & Hv & Hi). apply offered_true.
  repeat split; auto.
  rewrite getShiritoriValidity_split in Hv. apply andb_true_iff in Hv as [Hp Hn].
  rewrite getShiritoriValidity_split. apply andb_true_iff. split.
  - unfold prevPokemon in *. cbn [handle selectedPokemon].
    destruct (Z.eq_dec (Z.of_nat j - 1) (Z.of_nat index)) as [E | E].
    + rewrite E, element_array_set_same.
      apply (proj1 getShiritoriValidity_permissive).
    + now rewrite element_array_set_other.
  - unfold nextPokemon in *. cbn [handle selectedPokemon].
    destruct (Z.eq_dec (Z.of_nat j + 1) (Z.of_nat index)) as [E | E].
    + rewrite E, element_array_set_same.
      apply (proj1 getShiritoriValidity_permissive).
    + now rewrite element_array_set_other.
Qed.

(** X15, on the sample state with its first slot cleared. *)
Lemma clearing_widens_witness :
  In arcanine (filtered sample_data sample_state 1) /\
  In arcanine (filtered sample_data (handle sample_state (Change 0 None)) 1).
Proof.
  assert (H : In arcanine (filtered sample_data sample_state 1))
    by (vm_compute; auto).
  split; [exact H|].
  exact (clearing_widens sample_data sample_state 0 1 arcanine H).
Defined.

(** ** Data in dex order *)

Lemma sort_by_id_sorted (l : list Pokemon) :
  StronglySorted (fun a b => id a <= id b) l -> sort_by_id l = l.
Proof.
  induction 1 as [|p l Hl IH Hp]; [reflexivity|].
  cbn [sort_by_id fold_right]. fold (sort_by_id l). rewrite IH.
  destruct l as [|q l']; [reflexivity|]. cbn [insert_by_id].
  inversion Hp as [|? ? Hq _]; subst. apply N.leb_le in Hq. now rewrite Hq.
Qed.

Lemma filter_sorted (A : Type) (R : A -> A -> Prop) (f : A -> bool) (l : list A) :
  StronglySorted R l -> StronglySorted R (filter f l).
Proof.
  induction 1 as [|x l Hl IH Hx]; cbn [filter]; [constructor|].
  destruct (f x); [|exact IH]. constructor; [exact IH|].
  rewrite Forall_forall in *. intros y Hy. apply filter_In in Hy. now apply Hx.
Qed.

(** X16.  On data in ascending order of [id] the sort changes nothing:
    the [options] are the filtered entries as they stand, and the list a
    picker shows, which is built from the filtered entries and not from
    the [options], is in ascending order of [id] as well. *)
Theorem options_of_sorted_data (data : list Pokemon) (st : AppState) (index : nat) :
  StronglySorted (fun a b => id a <= id b) data ->
  options data st index = filtered data st index /\
  StronglySorted (fun a b => id a <= id b) (filterOptions data st index).
Proof.
  intros H. split.
  - apply sort_by_id_sorted, filter_sorted, H.
  - unfold filterOptions.
    destruct (JS.is_empty (rawInput st index) && absent (prevPokemon st index)
              && absent (nextPokemon st index)); [constructor|].
    apply filter_sorted, H.
Qed.

(** X16, on three entries in dex order. *)
Lemma options_of_sorted_data_witness :
  StronglySorted (fun a b => id a <= id b) [pikachu; arcanine; eevee] /\
  options [pikachu; arcanine; eevee] sample_state 2
  = filtered [pikachu; arcanine; eevee] sample_state 2.
Proof.
  assert (H : StronglySorted (fun a b => id a <= id b) [pikachu; arcanine; eevee])
    by (repeat constructor; vm_compute; discriminate).
  split; [exact H|].
  exact (proj1 (options_of_sorted_data [pikachu; arcanine; eevee] sample_state 2 H)).
Defined.

(** ** The passes on their own *)

(** X17.  The edge pass on its own is idempotent, and on every string its
    result has a first and a last unit that are no entries of the voicing
    table. *)
Theorem normalizeDakuten_idempotent (s : jsstring) :
  normalizeDakuten (normalizeDakuten s) = normalizeDakuten s /\
  edges_unvoiced (normalizeDakuten s).
Proof.
  rewrite !normalizeDakuten_eq.
  assert (U : edges_unvoiced (edges devoice s)).
  { intros c [H | H].
    - rewrite hd_error_edges in H. destruct (hd_error s); [|discriminate].
      injection H as <-. apply devoice_unvoiced.
    - rewrite last_error_edges in H. destruct (last_error s); [|discriminate].
      injection H as <-. apply devoice_unvoiced. }
  split; [|exact U].
  apply edges_fix; intros c H; apply voiced_devoice, U; tauto.
Qed.

(** X18.  The table of the small-kana pass and its predicate.  Every unit
    [isSmallKana] accepts has an entry in the table, so the guard
    [isSmallKana(ch) && map[ch]] fails for no accepted unit, and the entry
    is a unit the predicate rejects; the entries for ゕ (U+3095) and ゖ
    (U+3096) are never used, as the predicate rejects both: the pass keeps
    a string of these two as it is. *)
Theorem normalizeSmallKana_table :
  (forall c, isSmallKana [c] = true ->
     exists v, JS.get small_map [c] = Some [v] /\ enlarge c = v /\
               isSmallKana [v] = false) /\
  (forall s, Forall (fun c => c = 0x3095 \/ c = 0x3096) s ->
     Forall (fun c => JS.get small_map [c] <> None) s /\
     normalizeSmallKana s = s).
Proof.
  split.
  - intros c H. unfold isSmallKana in H. rewrite !includes_unit in H.
    assert (Hin : In c (smallHira ++ smallKata)).
    { apply in_or_app. apply orb_true_iff in H as [H | H]; apply mem_In in H; tauto. }
    clear H. revert c Hin. apply Forall_forall. vm_compute.
    repeat (constructor; [eexists; repeat split|]). constructor.
  - intros s Hs. split.
    + revert Hs. apply Forall_impl. intros c [-> | ->]; vm_compute; discriminate.
    + rewrite normalizeSmallKana_eq, nfkc_clean.
      * rewrite <- (map_id s) at 2. apply map_ext_Forall. revert Hs.
        apply Forall_impl. intros c [-> | ->]; reflexivity.
      * revert Hs. apply Forall_impl. intros c [-> | ->]; vm_compute; reflexivity.
Qed.

(** X18, on ャ and on "ゕゖ". *)
Lemma normalizeSmallKana_table_witness :
  (isSmallKana [0x30E3] = true /\ enlarge 0x30E3 = 0x30E4) /\
  (Forall (fun c => c = 0x3095 \/ c = 0x3096) [0x3095; 0x3096] /\
   normalizeSmallKana [0x3095; 0x3096] = [0x3095; 0x3096]).
Proof.
  assert (H1 : isSmallKana [0x30E3] = true) by reflexivity.
  assert (H2 : Forall (fun c => c = 0x3095 \/ c = 0x3096) [0x3095; 0x3096])
    by (repeat constructor; auto).
  split.
  - split; [exact H1|].
    destruct (proj1 normalizeSmallKana_table 0x30E3 H1) as (v & Hv & He & _).
    rewrite He. vm_compute in Hv. now injection Hv as <-.
  - split; [exact H2|].
    exact (proj2 (proj2 normalizeSmallKana_table [0x3095; 0x3096] H2)).
Defined.

(** ** Classes of code units the canonical key never holds *)

Section Without.

Variable bad : code -> bool.

Hypothesis composites :
  forallb (fun row => negb (bad (snd row))) Unicode.composition_table = true.


End Without.





(** ** Capitals *)





(** ** The last unit of a key *)




















(** ** The substitution pass on its own *)

Lemma substitute_settled (c : code) :
  flat_map substitute (substitute c) = substitute c /\
  Forall (fun x => JS.get specialCases [x] = None) (substitute c).
Proof.
  destruct (substitute_cases c) as [E | H].
  - rewrite E. cbn [flat_map]. rewrite List.app_nil_r. split; [exact E|].
    constructor; [|constructor]. unfold substitute in E.
    destruct (JS.get specialCases [c]) as [to|] eqn:G; [|reflexivity].
    exfalso. subst to. revert G. unfold specialCases. cbn [JS.get JS.eqb].
    rewrite !andb_true_r.
    destruct (c =? 65298); [discriminate|]. destruct (c =? 65338); discriminate.
  - revert c H. apply Forall_forall. vm_compute.
    repeat (constructor; [split; [reflexivity | repeat constructor]|]). constructor.
Qed.

(** X22.  The substitution pass on its own is idempotent: its result
    holds no key of the table of special cases (neither ２, U+FF12, nor
    Ｚ, U+FF3A), and the pass never shortens a string. *)
Theorem normalizeSpecialCases_idempotent (s : jsstring) :
  normalizeSpecialCases (normalizeSpecialCases s) = normalizeSpecialCases s /\
  Forall (fun c => c <> 0xFF12 /\ c <> 0xFF3A) (normalizeSpecialCases s) /\
  (length s <= length (normalizeSpecialCases s))%nat.
Proof.
  rewrite !normalizeSpecialCases_eq. induction s as [|c s (IH1 & IH2 & IH3)].
  - repeat split; constructor.
  - cbn [flat_map]. destruct (substitute_settled c) as [S1 S2]. split; [|split].
    + now rewrite flat_map_app, S1, IH1.
    + apply Forall_app. split; [|exact IH2].
      revert S2. apply Forall_impl. intros x Hx. split; intros ->; discriminate.
    + rewrite length_app. cbn [length].
      assert (1 <= length (substitute c))%nat; [|lia].
      destruct (substitute_cases c) as [E | H]; [now rewrite E|].
      clear S1 S2. revert c H. apply Forall_forall. vm_compute. repeat constructor.
Qed.
